(** * Editor-chrome adapters: diagnostics merging, tag closing, file picker

    A shallow embedding of three small event-driven components:

    - [DiagnosticsManager] (extensions/typescript/src/features/diagnostics.ts),
    - [TagClosing] (the auto-closing-tag assistant of the TypeScript
      extension),
    - [FileSorter] and [BreadcrumbsFilePicker]
      (vs/workbench/browser/parts/editor/breadcrumbsPicker.ts).

    Objects with mutable fields become records that are threaded through
    the methods; host services (timers, cancellation tokens, the
    diagnostic collection, the emitter) become explicit parts of the state
    so that what a method did can be read off the state it returns. *)

From Stdlib Require Import Ascii.
From stdpp Require Import gmap strings list fin_maps.

Set Default Proof Using "Type".

(** ** DiagnosticsManager *)

Module Diagnostics.

(** [vscode.Uri]; the collection is keyed by it. *)
Definition Uri : Type := string.

Section manager.

(** [vscode.Diagnostic]: the manager never looks inside one. *)
Context {Diagnostic : Type}.

(** [client.asUrl]: the service client is a collaborator of the manager,
    only its signature is visible from here. *)
Variable asUrl : string → Uri.

(** Modelled from the spec: the presentation sink
    ([vscode.DiagnosticCollection]) is described only by its interface,
    [set(uri, diagnostic[])], [delete(uri)], [clear()], keyed by URI. *)
Definition collection_set (u : Uri) (d : list Diagnostic)
    (c : gmap Uri (list Diagnostic)) : gmap Uri (list Diagnostic) :=
  <[u := d]> c.

Definition collection_delete (u : Uri)
    (c : gmap Uri (list Diagnostic)) : gmap Uri (list Diagnostic) :=
  delete u c.

Definition collection_clear
    (c : gmap Uri (list Diagnostic)) : gmap Uri (list Diagnostic) := ∅.

(** The fields of the class.  [ObjectMap<Diagnostic[]>] is an object
    created with a null prototype and used as a string-keyed map. *)
Record DiagnosticsManager := {
  syntaxDiagnostics : gmap string (list Diagnostic);
  semanticDiagnostics : gmap string (list Diagnostic);
  currentDiagnostics : gmap Uri (list Diagnostic);
  _validate : bool
}.

(** The constructor. *)
Definition create : DiagnosticsManager :=
  {| syntaxDiagnostics := ∅;
     semanticDiagnostics := ∅;
     currentDiagnostics := ∅;
     _validate := true |}.

Definition reInitialize (m : DiagnosticsManager) : DiagnosticsManager :=
  {| syntaxDiagnostics := ∅;
     semanticDiagnostics := ∅;
     currentDiagnostics := collection_clear (currentDiagnostics m);
     _validate := _validate m |}.

Definition updateValidate (value : bool) (m : DiagnosticsManager)
    : DiagnosticsManager :=
  if Bool.eqb (_validate m) value then m
  else if negb value then
    {| syntaxDiagnostics := ∅;
       semanticDiagnostics := ∅;
       currentDiagnostics := collection_clear (currentDiagnostics m);
       _validate := value |}
  else
    {| syntaxDiagnostics := syntaxDiagnostics m;
       semanticDiagnostics := semanticDiagnostics m;
       currentDiagnostics := currentDiagnostics m;
       _validate := value |}.

(** [o[file] || []]: an array is truthy, so only a missing entry takes
    the right-hand side. *)
Definition or_empty (o : option (list Diagnostic)) : list Diagnostic :=
  default [] o.

Definition syntaxDiagnosticsReceived (file : string)
    (syntaxDiags : list Diagnostic) (m : DiagnosticsManager)
    : DiagnosticsManager :=
  if negb (_validate m) then m
  else
    let semanticDianostics := or_empty (semanticDiagnostics m !! file) in
    {| syntaxDiagnostics := <[file := syntaxDiags]> (syntaxDiagnostics m);
       semanticDiagnostics := semanticDiagnostics m;
       currentDiagnostics :=
         collection_set (asUrl file) (semanticDianostics ++ syntaxDiags)
           (currentDiagnostics m);
       _validate := _validate m |}.

Definition semanticDiagnosticsReceived (file : string)
    (semanticDiags : list Diagnostic) (m : DiagnosticsManager)
    : DiagnosticsManager :=
  if negb (_validate m) then m
  else
    let syntaxDiags := or_empty (syntaxDiagnostics m !! file) in
    {| syntaxDiagnostics := syntaxDiagnostics m;
       semanticDiagnostics := <[file := semanticDiags]> (semanticDiagnostics m);
       currentDiagnostics :=
         collection_set (asUrl file) (semanticDiags ++ syntaxDiags)
           (currentDiagnostics m);
       _validate := _validate m |}.

Definition configFileDiagnosticsReceived (file : string)
    (diagnostics : list Diagnostic) (m : DiagnosticsManager)
    : DiagnosticsManager :=
  {| syntaxDiagnostics := syntaxDiagnostics m;
     semanticDiagnostics := semanticDiagnostics m;
     currentDiagnostics :=
       collection_set (asUrl file) diagnostics (currentDiagnostics m);
     _validate := _validate m |}.

Definition delete_ (file : string) (m : DiagnosticsManager)
    : DiagnosticsManager :=
  {| syntaxDiagnostics := syntaxDiagnostics m;
     semanticDiagnostics := semanticDiagnostics m;
     currentDiagnostics := collection_delete (asUrl file) (currentDiagnostics m);
     _validate := _validate m |}.

(** *** Call sequences *)

(** One call of a receive method, as the language service delivers it. *)
Inductive Received :=
| Syntax (file : string) (d : list Diagnostic)
| Semantic (file : string) (d : list Diagnostic).

Definition receive (m : DiagnosticsManager) (e : Received)
    : DiagnosticsManager :=
  match e with
  | Syntax f d => syntaxDiagnosticsReceived f d m
  | Semantic f d => semanticDiagnosticsReceived f d m
  end.

(** The manager after the calls of [tr], oldest first. *)
Definition receive_all (tr : list Received) (m : DiagnosticsManager)
    : DiagnosticsManager :=
  foldl receive m tr.

Definition received_file (e : Received) : string :=
  match e with Syntax f _ | Semantic f _ => f end.

(** The list most recently handed to [syntaxDiagnosticsReceived] for
    [file] in a call sequence, read off the calls themselves. *)
Fixpoint last_syntax (file : string) (tr : list Received)
    : option (list Diagnostic) :=
  match tr with
  | [] => None
  | e :: tr' =>
      match last_syntax file tr' with
      | Some d => Some d
      | None =>
          match e with
          | Syntax f d => if decide (f = file) then Some d else None
          | Semantic _ _ => None
          end
      end
  end.

Fixpoint last_semantic (file : string) (tr : list Received)
    : option (list Diagnostic) :=
  match tr with
  | [] => None
  | e :: tr' =>
      match last_semantic file tr' with
      | Some d => Some d
      | None =>
          match e with
          | Semantic f d => if decide (f = file) then Some d else None
          | Syntax _ _ => None
          end
      end
  end.

(** What is on display for [file] according to the two mappings. *)
Definition merged (m : DiagnosticsManager) (file : string)
    : option (list Diagnostic) :=
  match semanticDiagnostics m !! file, syntaxDiagnostics m !! file with
  | None, None => None
  | s, y => Some (or_empty s ++ or_empty y)
  end.

(** Both mappings and the published set are empty. *)
Definition cleared (m : DiagnosticsManager) : Prop :=
  syntaxDiagnostics m = ∅ ∧ semanticDiagnostics m = ∅
  ∧ currentDiagnostics m = ∅.

(** Any call of a public method that changes the manager. *)
Inductive Call :=
| Receive (e : Received)
| ConfigFile (file : string) (d : list Diagnostic)
| Delete (file : string)
| UpdateValidate (value : bool)
| ReInitialize.

Definition call (m : DiagnosticsManager) (c : Call) : DiagnosticsManager :=
match c with
| Receive e => receive m e
| ConfigFile f d => configFileDiagnosticsReceived f d m
| Delete f => delete_ f m
| UpdateValidate b => updateValidate b m
| ReInitialize => reInitialize m
end.

(** The manager after the calls of [cs], oldest first. *)
Definition call_all (cs : list Call) (m : DiagnosticsManager)
  : DiagnosticsManager :=
foldl call m cs.

(** The calls that write to the collection past the two mappings. *)
Definition writes_collection_only (c : Call) : bool :=
match c with
| ConfigFile _ _ | Delete _ => true
| _ => false
end.

(** Neither mapping holds an entry. *)
Definition mappings_empty (m : DiagnosticsManager) : Prop :=
syntaxDiagnostics m = ∅ ∧ semanticDiagnostics m = ∅.

(** The collection shows, URI by URI, what the mappings hold. *)
Definition in_step (m : DiagnosticsManager) : Prop :=
(∀ f, currentDiagnostics m !! asUrl f = merged m f)
∧ (∀ u, is_Some (currentDiagnostics m !! u) → ∃ f, u = asUrl f).

End manager.

Arguments DiagnosticsManager : clear implicits.
Arguments Received : clear implicits.
Arguments Call : clear implicits.

(** A manager for files named by their own URI, with numbers standing for
    diagnostics. *)
Definition plain : string → Uri := λ f, f.

Definition sample : DiagnosticsManager nat :=
  semanticDiagnosticsReceived plain "a.ts" [2]
    (syntaxDiagnosticsReceived plain "a.ts" [1] create).

End Diagnostics.

(** ** TagClosing *)

Module TagClosing.

(** *** Editor data, as the handler reads it *)

Record Position := { line : nat; character : nat }.

#[global] Instance Position_eq_dec : EqDecision Position.
Proof. solve_decision. Defined.

(** [Position.isEqual]. *)
Definition isEqual (p q : Position) : bool :=
  (line p =? line q) && (character p =? character q).

Record Range := { start : Position; end_ : Position }.

Record TextDocumentContentChangeEvent := {
  range : Range;
  rangeLength : nat;
  text : string
}.

(** A document object is compared by reference ([document !== activeDocument]);
    [doc_id] stands for the reference, [uri] and [version] are the fields
    read through it at the time of the read. *)
Record TextDocument := { doc_id : nat; uri : string; version : nat }.

Record Selection := { anchor : Position; active : Position }.

Record TextEditor := { document : TextDocument; selections : list Selection }.

(** [Proto.TextInsertion]. *)
Record TextInsertion := { newText : string; caretOffset : nat }.

(** [vscode.SnippetString], kept as the sequence of append calls. *)
Inductive SnippetPart :=
| Placeholder (value : string) (number : nat)
| Text (value : string).

Definition SnippetString : Type := list SnippetPart.

(** The second argument of [insertSnippet]: one position or an array. *)
Inductive Location :=
| At (p : Position)
| AtAll (ps : list Position).

Definition positions_of (l : Location) : list Position :=
  match l with At p => [p] | AtAll ps => ps end.

(** One call of [editor.insertSnippet], with the document of the editor it
    was made on. *)
Record Insertion := {
  ins_document : nat;
  ins_snippet : SnippetString;
  ins_location : Location
}.

(** What [client.execute] settles to: a rejection, a response without body,
    or a response with one. *)
Inductive Response :=
| Rejected
| NoBody
| Body (body : TextInsertion).

(** *** The component and its host *)

(** Variables captured by the arrow function handed to [setTimeout]. *)
Record Closure := {
  c_document : nat;
  c_filepath : string;
  c_lastChange : TextDocumentContentChangeEvent;
  c_rangeStart : Position;
  c_version : nat
}.

(** A [jsxClosingTag] request awaiting its response, with the continuation
    that resumes after [await]. *)
Record Request := {
  r_file : string;
  r_position : Position;
  r_token : nat;
  r_closure : Closure
}.

Inductive TokenState := Live | Cancelled.

Record TagClosing := {
  _disposed : bool;
  _timeout : option nat;
  _cancel : option nat
}.

(** The part of the extension host the component acts on: the active
    editor, armed timers (delay and callback) by handle, cancellation token
    sources by identity, requests in flight, whether the
    [onDidChangeTextDocument] subscription is still registered, and the
    snippet insertions performed so far. *)
Record Host := {
  activeTextEditor : option TextEditor;
  timers : gmap nat (nat * Closure);
  nextTimer : nat;
  tokens : gmap nat TokenState;
  nextToken : nat;
  requests : gmap nat Request;
  nextRequest : nat;
  subscribed : bool;
  inserted : list Insertion
}.

Definition with_timers (t : gmap nat (nat * Closure)) (n : nat) (h : Host) : Host :=
  {| activeTextEditor := activeTextEditor h; timers := t; nextTimer := n;
     tokens := tokens h; nextToken := nextToken h;
     requests := requests h; nextRequest := nextRequest h;
     subscribed := subscribed h; inserted := inserted h |}.

Definition with_tokens (t : gmap nat TokenState) (n : nat) (h : Host) : Host :=
  {| activeTextEditor := activeTextEditor h; timers := timers h;
     nextTimer := nextTimer h; tokens := t; nextToken := n;
     requests := requests h; nextRequest := nextRequest h;
     subscribed := subscribed h; inserted := inserted h |}.

Definition with_requests (r : gmap nat Request) (n : nat) (h : Host) : Host :=
  {| activeTextEditor := activeTextEditor h; timers := timers h;
     nextTimer := nextTimer h; tokens := tokens h; nextToken := nextToken h;
     requests := r; nextRequest := n;
     subscribed := subscribed h; inserted := inserted h |}.

Definition with_subscribed (b : bool) (h : Host) : Host :=
  {| activeTextEditor := activeTextEditor h; timers := timers h;
     nextTimer := nextTimer h; tokens := tokens h; nextToken := nextToken h;
     requests := requests h; nextRequest := nextRequest h;
     subscribed := b; inserted := inserted h |}.

Definition with_inserted (l : list Insertion) (h : Host) : Host :=
  {| activeTextEditor := activeTextEditor h; timers := timers h;
     nextTimer := nextTimer h; tokens := tokens h; nextToken := nextToken h;
     requests := requests h; nextRequest := nextRequest h;
     subscribed := subscribed h; inserted := l |}.

Definition with_editor (e : option TextEditor) (h : Host) : Host :=
  {| activeTextEditor := e; timers := timers h;
     nextTimer := nextTimer h; tokens := tokens h; nextToken := nextToken h;
     requests := requests h; nextRequest := nextRequest h;
     subscribed := subscribed h; inserted := inserted h |}.

(** [setTimeout(callback, delay)]: a fresh handle, the timer armed. *)
Definition setTimeout (c : Closure) (delay : nat) (h : Host) : nat * Host :=
  (nextTimer h,
   with_timers (<[nextTimer h := (delay, c)]> (timers h)) (S (nextTimer h)) h).

Definition clearTimeout (id : nat) (h : Host) : Host :=
  with_timers (delete id (timers h)) (nextTimer h) h.

(** [new vscode.CancellationTokenSource()]. *)
Definition newTokenSource (h : Host) : nat * Host :=
  (nextToken h,
   with_tokens (<[nextToken h := Live]> (tokens h)) (S (nextToken h)) h).

(** [source.cancel(); source.dispose()]. *)
Definition cancelAndDispose (k : nat) (h : Host) : Host :=
  with_tokens (alter (λ _, Cancelled) k (tokens h)) (nextToken h) h.

(** [client.execute('jsxClosingTag', args, token)] up to the [await]. *)
Definition execute (r : Request) (h : Host) : Host :=
  with_requests (<[nextRequest h := r]> (requests h)) (S (nextRequest h)) h.

(** [editor.insertSnippet(snippet, location)] on the active editor. *)
Definition insertSnippet (ed : TextEditor) (s : SnippetString) (l : Location)
    (h : Host) : Host :=
  with_inserted
    (inserted h ++
       [{| ins_document := doc_id (document ed);
           ins_snippet := s; ins_location := l |}]) h.

Definition State : Type := TagClosing * Host.

(** The constructor subscribes to document changes. *)
Definition create (h : Host) : State :=
  ({| _disposed := false; _timeout := None; _cancel := None |},
   with_subscribed true h).

(** A host in which nothing has happened yet. *)
Definition idle_host (ed : option TextEditor) : Host :=
  {| activeTextEditor := ed; timers := ∅; nextTimer := 1;
     tokens := ∅; nextToken := 0; requests := ∅; nextRequest := 0;
     subscribed := false; inserted := [] |}.

(** *** Methods *)

Definition dispose (s : State) : State :=
  let '(tc, h) := s in
  let h := with_subscribed false h in
  let h := match _timeout tc with Some id => clearTimeout id h | None => h end in
  let h := match _cancel tc with Some k => cancelAndDispose k h | None => h end in
  ({| _disposed := true; _timeout := None; _cancel := None |}, h).

(** [s[i]] on a string: [undefined] outside [0 .. length - 1]. *)
Definition charAt (s : string) (i : Z) : option Ascii.ascii :=
  if (i <? 0)%Z then None else String.get (Z.to_nat i) s.

Definition is_char (c : Ascii.ascii) (o : option Ascii.ascii) : bool :=
  match o with Some c' => bool_decide (c' = c) | None => false end.

Definition text_length (c : TextDocumentContentChangeEvent) : Z :=
  Z.of_nat (String.length (text c)).

Definition lastCharacter (c : TextDocumentContentChangeEvent) : option Ascii.ascii :=
  charAt (text c) (text_length c - 1).

Definition secondToLastCharacter (c : TextDocumentContentChangeEvent)
    : option Ascii.ascii :=
  charAt (text c) (text_length c - 2).

(** The two early returns after [lastChange] is taken; [true] when neither
    fires. *)
Definition triggers (lastChange : TextDocumentContentChangeEvent) : bool :=
  if (0 <? rangeLength lastChange)
     || (negb (is_char ">"%char (lastCharacter lastChange))
         && negb (is_char "/"%char (lastCharacter lastChange)))
  then false
  else if is_char ">"%char (secondToLastCharacter lastChange) then false
  else true.

(** [document !== activeDocument], with
    [activeDocument = activeTextEditor && activeTextEditor.document]. *)
Definition is_active (doc : nat) (h : Host) : bool :=
  match activeTextEditor h with
  | Some ed => doc_id (document ed) =? doc
  | None => false
  end.

(** Lines 61-69: clear the timer whose handle is held, cancel and drop the
    token source that is held.  The handle itself stays in [_timeout]. *)
Definition cancelPending (s : State) : State :=
  let '(tc, h) := s in
  let h := match _timeout tc with Some id => clearTimeout id h | None => h end in
  match _cancel tc with
  | Some k =>
      ({| _disposed := _disposed tc; _timeout := _timeout tc; _cancel := None |},
       cancelAndDispose k h)
  | None => (tc, h)
  end.

(** Lines 82-84 and 121: capture the closure and arm the timer. *)
Definition armTimer (doc : TextDocument) (filepath : string)
    (lastChange : TextDocumentContentChangeEvent) (s : State) : State :=
  let '(tc, h) := s in
  let c := {| c_document := doc_id doc; c_filepath := filepath;
              c_lastChange := lastChange;
              c_rangeStart := start (range lastChange);
              c_version := version doc |} in
  let '(id, h) := setTimeout c 100 h in
  ({| _disposed := _disposed tc; _timeout := Some id; _cancel := _cancel tc |}, h).

Section client.

(** [client.toPath]: [undefined] for a resource the service cannot
    address. *)
Variable toPath : string → option string.

(** [!filepath] is also true of the empty string. *)
Definition resolved_path (u : string) : option string :=
  match toPath u with
  | Some EmptyString => None
  | o => o
  end.

Definition onDidChangeTextDocument (doc : TextDocument)
    (changes : list TextDocumentContentChangeEvent) (s : State) : State :=
  if negb (is_active (doc_id doc) (snd s)) || (length changes =? 0) then s
  else
    match resolved_path (uri doc) with
    | None => s
    | Some filepath =>
        let s := cancelPending s in
        match last changes with
        | None => s
        | Some lastChange =>
            if triggers lastChange then armTimer doc filepath lastChange s
            else s
        end
    end.

End client.

(** [getTagSnippet]. *)
Definition getTagSnippet (closingTag : TextInsertion) : SnippetString :=
  [Placeholder "" 0; Text (newText closingTag)].

(** [getInsertionPositions]. *)
Definition getInsertionPositions (editor : TextEditor) (position : Position)
    : Location :=
  let activeSelectionPositions := map active (selections editor) in
  if existsb (λ p, isEqual p position) activeSelectionPositions
  then AtAll activeSelectionPositions
  else At position.

(** The position right after the typed text (line 91). *)
Definition closure_position (c : Closure) : Position :=
  {| line := line (c_rangeStart c);
     character := character (c_rangeStart c)
                  + String.length (text (c_lastChange c)) |}.

(** The timer callback up to its [await] (lines 85-97). *)
Definition timerCallback (c : Closure) (s : State) : State :=
  let '(tc, h) := s in
  let tc := {| _disposed := _disposed tc; _timeout := None; _cancel := _cancel tc |} in
  if _disposed tc then (tc, h)
  else
    let position := closure_position c in
    let '(k, h) := newTokenSource h in
    let tc := {| _disposed := _disposed tc; _timeout := _timeout tc;
                 _cancel := Some k |} in
    (tc, execute {| r_file := c_filepath c; r_position := position;
                    r_token := k; r_closure := c |} h).

(** The timer callback from the [await] on (lines 98-120). *)
Definition continuation (r : Request) (resp : Response) (s : State) : State :=
  let '(tc, h) := s in
  match resp with
  | Rejected | NoBody => s
  | Body body =>
      if _disposed tc then s
      else
        match activeTextEditor h with
        | None => s
        | Some activeEditor =>
            let activeDocument := document activeEditor in
            if (c_document (r_closure r) =? doc_id activeDocument)
               && (version activeDocument =? c_version (r_closure r))
            then
              (tc, insertSnippet activeEditor (getTagSnippet body)
                     (getInsertionPositions activeEditor (r_position r)) h)
            else s
        end
  end.

(** *** Events *)

Inductive Event :=
| DidChangeTextDocument (doc : TextDocument)
    (changes : list TextDocumentContentChangeEvent)
| TimerFired (id : nat)
| ResponseArrived (rid : nat) (resp : Response)
| Disposed
| EditorChanged (ed : option TextEditor).

Section run.

Variable toPath : string → option string.

(** What the host does with one event.  A change is delivered only while
    the subscription stands; a timer fires only while armed and is then
    gone; a response resumes the request it belongs to, once.
    [EditorChanged] covers everything the user does to the window:
    switching editors, typing (the version moves), moving cursors. *)
Definition step (s : State) (e : Event) : State :=
  match e with
  | DidChangeTextDocument doc changes =>
      if subscribed (snd s) then onDidChangeTextDocument toPath doc changes s
      else s
  | TimerFired id =>
      match timers (snd s) !! id with
      | Some (_, c) => timerCallback c (fst s, clearTimeout id (snd s))
      | None => s
      end
  | ResponseArrived rid resp =>
      match requests (snd s) !! rid with
      | Some r =>
          continuation r resp
            (fst s, with_requests (delete rid (requests (snd s)))
                      (nextRequest (snd s)) (snd s))
      | None => s
      end
  | Disposed => dispose s
  | EditorChanged ed => (fst s, with_editor ed (snd s))
  end.

Definition run (evs : list Event) (s : State) : State := foldl step s evs.

(** States the component can be in: created on some idle host, then any
    events. *)
Definition reachable (s : State) : Prop :=
  ∃ ed evs, s = run evs (create (idle_host ed)).

End run.

(** A timer is live while armed; a token source while not cancelled; a
    request is logically in flight while pending under a live token. *)
Definition timer_live (s : State) (id : nat) : Prop :=
  is_Some (timers (snd s) !! id).

Definition token_live (s : State) (k : nat) : Prop :=
  tokens (snd s) !! k = Some Live.

Definition request_live (s : State) (rid : nat) : Prop :=
  ∃ r, requests (snd s) !! rid = Some r ∧ token_live s (r_token r).

(** The timer armed by a call that started in [s] and ended in [s']: a fresh
    handle, held in [_timeout], with the 100 ms delay. *)
Definition armed_new (s s' : State) : Prop :=
  nextTimer (snd s') = S (nextTimer (snd s))
  ∧ _timeout (fst s') = Some (nextTimer (snd s))
  ∧ ∃ c, timers (snd s') !! nextTimer (snd s) = Some (100, c).

(** The three conditions under which a response is out of date for the
    state it arrives in: the component is disposed; the active document is
    not the one the request was made for (or there is no active editor);
    that document is active but its version is not the recorded one. *)
Definition stale (r : Request) (s : State) : Prop :=
  _disposed (fst s) = true
  ∨ (∀ ed, activeTextEditor (snd s) = Some ed →
       doc_id (document ed) ≠ c_document (r_closure r))
  ∨ (∃ ed, activeTextEditor (snd s) = Some ed
       ∧ doc_id (document ed) = c_document (r_closure r)
       ∧ version (document ed) ≠ c_version (r_closure r)).

(** What holds of every state the component reaches: an armed timer is the
    one whose handle is held; a live token source is the one held; no token
    source is live while a timer is armed; every pending request carries a
    token source already created, and no two carry the same one. *)
Definition invariant (s : State) : Prop :=
  (∀ id, timer_live s id → _timeout (fst s) = Some id)
  ∧ (∀ k, token_live s k → _cancel (fst s) = Some k)
  ∧ (∀ id k, timer_live s id → ¬ token_live s k)
  ∧ (∀ rid r, requests (snd s) !! rid = Some r →
       r_token r < nextToken (snd s))
  ∧ (∀ rid1 rid2 r1 r2,
       requests (snd s) !! rid1 = Some r1 →
       requests (snd s) !! rid2 = Some r2 →
       r_token r1 = r_token r2 → rid1 = rid2).

(** Nothing is pending: no timer armed, no token source live. *)
Definition quiet (s : State) : Prop :=
  (∀ id, ¬ timer_live s id) ∧ (∀ k, ¬ token_live s k).

(** *** Sample data *)

(** A client that addresses [file://] resources only. *)
Definition file_toPath (u : string) : option string :=
  if String.prefix "file://" u
  then Some (String.substring 7 (String.length u - 7) u)
  else None.

Definition pos (l c : nat) : Position := {| line := l; character := c |}.

Definition cursor (p : Position) : Selection := {| anchor := p; active := p |}.

(** Typing [t] at [p]: an insertion that replaces nothing. *)
Definition typed (p : Position) (t : string) : TextDocumentContentChangeEvent :=
  {| range := {| start := p; end_ := p |}; rangeLength := 0; text := t |}.

Definition app_tsx (v : nat) : TextDocument :=
  {| doc_id := 1; uri := "file:///src/app.tsx"; version := v |}.

Definition scratch (v : nat) : TextDocument :=
  {| doc_id := 2; uri := "untitled:Untitled-1"; version := v |}.

Definition editing (d : TextDocument) (cursors : list Position) : TextEditor :=
  {| document := d; selections := map cursor cursors |}.

(** The component created while app.tsx is open at version 4 with the
    cursor at 0:4. *)
Definition started : State :=
  create (idle_host (Some (editing (app_tsx 4) [pos 0 4]))).

(** ... after ">" was typed at 0:4 (version 5, cursor now at 0:5). *)
Definition after_typing : State :=
  run file_toPath
    [EditorChanged (Some (editing (app_tsx 5) [pos 0 5]));
     DidChangeTextDocument (app_tsx 5) [typed (pos 0 4) ">"]]
    started.

(** ... after the debounce timer fired and the request went out. *)
Definition after_timer : State := step file_toPath after_typing (TimerFired 1).

Definition closing_div : TextInsertion :=
  {| newText := "</div>"; caretOffset := 0 |}.

(** The request that went out, as [after_timer] holds it under number 0. *)
Definition sent : Request :=
  {| r_file := "/src/app.tsx"; r_position := pos 0 5; r_token := 0;
     r_closure :=
       {| c_document := 1; c_filepath := "/src/app.tsx";
          c_lastChange := typed (pos 0 4) ">";
          c_rangeStart := pos 0 4; c_version := 5 |} |}.

(** ... the user typed on while the request was out (version 6). *)
Definition typed_on : State :=
  step file_toPath after_timer
    (EditorChanged (Some (editing (app_tsx 6) [pos 0 6]))).

(** ... or, instead, a second cursor sits at 3:2. *)
Definition two_cursors : State :=
  step file_toPath after_timer
    (EditorChanged (Some (editing (app_tsx 5) [pos 0 5; pos 3 2]))).

(** The component created while an untitled buffer is open. *)
Definition started_untitled : State :=
  create (idle_host (Some (editing (scratch 1) [pos 0 0]))).

(** *** What timers and requests carry *)

(** A closure as [onDidChangeTextDocument] builds it: the captured change
    passed the trigger test, [rangeStart] is where that change starts, and
    the path is one the client resolved. *)
Definition closure_of_trigger (c : Closure) : Prop :=
  triggers (c_lastChange c) = true
  ∧ c_rangeStart c = start (range (c_lastChange c))
  ∧ c_filepath c ≠ EmptyString.

Definition carries_triggers (s : State) : Prop :=
  (∀ id delay c, timers (snd s) !! id = Some (delay, c) →
     delay = 100 ∧ closure_of_trigger c)
  ∧ (∀ rid r, requests (snd s) !! rid = Some r →
       closure_of_trigger (r_closure r)
       ∧ r_file r = c_filepath (r_closure r)
       ∧ r_position r = closure_position (r_closure r)).

(** Every insertion made is accounted for by a request that was sent and
    is no longer pending, and is the snippet [getTagSnippet] builds. *)
Definition accounted (s : State) : Prop :=
  length (inserted (snd s)) + size (requests (snd s)) ≤ nextRequest (snd s)
  ∧ Forall (λ i, ∃ t, ins_snippet i = [Placeholder "" 0; Text t])
      (inserted (snd s)).

(** The component is disposed and nothing can wake it: the subscription is
    gone and nothing is pending. *)
Definition shut_down (s : State) : Prop :=
  _disposed (fst s) = true ∧ subscribed (snd s) = false ∧ quiet s.

End TagClosing.

(** ** Breadcrumbs file picker *)

Module Picker.

Definition URI : Type := string.

(** [IFileStat], the fields the picker reads. *)
Record IFileStat := { name : string; resource : URI; isDirectory : bool }.

Section sorter.

(** [compareFileNames] from vs/base/common/comparers: the case-aware
    file-name comparison, used here as given. *)
Variable compareFileNames : string → string → Z.

(** [FileSorter.compare]. *)
Definition compare (a b : IFileStat) : Z :=
  if Bool.eqb (isDirectory a) (isDirectory b) then
    compareFileNames (name a) (name b)
  else if isDirectory a then (-1)%Z
  else 1%Z.

End sorter.

(** A comparison by character codes, to evaluate the sorter on examples. *)
Definition compare_codes (a b : string) : Z :=
  match String.compare a b with Lt => (-1)%Z | Eq => 0%Z | Gt => 1%Z end.

(** [ISelectionEvent]: the selected elements. *)
Record ISelectionEvent := { selection : list IFileStat }.

(** The picker, reduced to what its [_onDidPickElement] emitter has fired,
    oldest first. *)
Record BreadcrumbsFilePicker := { fired : list URI }.

Definition fire (u : URI) (p : BreadcrumbsFilePicker) : BreadcrumbsFilePicker :=
  {| fired := fired p ++ [u] |}.

(** [BreadcrumbsFilePicker._onDidChangeSelection]. *)
Definition _onDidChangeSelection (e : ISelectionEvent)
    (p : BreadcrumbsFilePicker) : BreadcrumbsFilePicker :=
  match head (selection e) with
  | Some stat => if negb (isDirectory stat) then fire (resource stat) p else p
  | None => p
  end.

(** *** FileRenderer.updateHighlights *)

(** [FuzzyScore]: [[score, matches]] or [undefined]. *)
Definition FuzzyScore : Type := option (Z * list nat).

(** [FileRenderer]: the scores kept per resource; a resource whose name did
    not match is kept with [undefined]. *)
Record FileRenderer := { _scores : gmap string FuzzyScore }.

(** [!topScore || score && topScore[0] < score[0]]. *)
Definition takes_over (topScore score : FuzzyScore) : bool :=
  match topScore with
  | None => true
  | Some top =>
      match score with
      | Some sc => (fst top <? fst sc)%Z
      | None => false
      end
  end.

Section renderer.

(** [fuzzyScore(pattern, word, undefined, true)] from
    vs/base/common/filters, used as given. *)
Variable fuzzyScore : string → string → FuzzyScore.

(** One turn of the [while (nav.next())] loop, on the scores, [topScore]
    and [topElement]. *)
Definition visit (pattern : string)
    (st : gmap string FuzzyScore * FuzzyScore * option IFileStat)
    (element : IFileStat)
    : gmap string FuzzyScore * FuzzyScore * option IFileStat :=
  let '(scores, topScore, topElement) := st in
  let score := fuzzyScore pattern (name element) in
  let scores := <[resource element := score]> scores in
  if takes_over topScore score then (scores, score, Some element)
  else (scores, topScore, topElement).

(** [updateHighlights], the navigator given as the elements it yields in
    order. *)
Definition updateHighlights (nav : list IFileStat) (pattern : string)
    (r : FileRenderer) : FileRenderer * option IFileStat :=
  let '(scores, _, topElement) :=
    foldl (visit pattern) (_scores r, None, None) nav in
  ({| _scores := scores |}, topElement).

End renderer.

(** *** BreadcrumbsFilePicker._getInitialSelection *)

Section initial_selection.

(** [isEqual] from vs/base/common/resources, used as given. *)
Variable isEqual : URI → URI → bool.

(** The [while (nav.next())] loop with its early return. *)
Fixpoint _getInitialSelection (nav : list IFileStat) (uri : URI)
    : option IFileStat :=
  match nav with
  | [] => None
  | current :: nav' =>
      if isEqual uri (resource current) then Some current
      else _getInitialSelection nav' uri
  end.

End initial_selection.

(** *** FileDataSource *)

(** A stat object: the reference that identifies it (the key of the
    [WeakMap]) and its fields. *)
Record StatObject := { ref : nat; stat : IFileStat }.

(** What [resolveFile] resolves to: the stat of the resource and its
    [children], [undefined] when it has none to list. *)
Record Resolved := { self : StatObject; children : option (list StatObject) }.

(** A tree element: a stat, or the URI the tree was given as input. *)
Inductive Element :=
| OfStat (o : StatObject)
| OfUri (u : URI).

Record FileDataSource := { _parents : gmap nat StatObject }.

Definition getId (element : Element) : string :=
  match element with OfUri u => u | OfStat o => resource (stat o) end.

Definition hasChildren (element : Element) : bool :=
  match element with OfUri _ => true | OfStat o => isDirectory (stat o) end.

Section data_source.

(** [IFileService.resolveFile]; [None] for a rejected promise. *)
Variable resolveFile : URI → option Resolved.

(** The [for (const child of stat.children)] loop. *)
Definition remember_parent (parent : StatObject) (cs : list StatObject)
    (m : gmap nat StatObject) : gmap nat StatObject :=
  foldl (λ m child, <[ref child := parent]> m) m cs.

(** [getChildren]: the data source afterwards and what the promise settles
    to, [None] when it is rejected (by the service, or by iterating
    [children] that are [undefined]). *)
Definition getChildren (element : Element) (ds : FileDataSource)
    : FileDataSource * option (list StatObject) :=
  match resolveFile (match element with
                     | OfUri u => u
                     | OfStat o => resource (stat o)
                     end) with
  | None => (ds, None)
  | Some resolved =>
      match children resolved with
      | None => (ds, None)
      | Some cs =>
          ({| _parents := remember_parent (self resolved) cs (_parents ds) |},
           Some cs)
      end
  end.

End data_source.

Definition getParent (element : Element) (ds : FileDataSource)
    : option StatObject :=
  match element with
  | OfUri _ => None
  | OfStat o => _parents ds !! ref o
  end.

(** A comparison by length, to evaluate the sorter on examples. *)
Definition compare_lengths (a b : string) : Z :=
  (Z.of_nat (String.length a) - Z.of_nat (String.length b))%Z.

(** A score for names that start with the pattern, to evaluate the
    renderer on examples. *)
Definition prefix_score (pattern word : string) : FuzzyScore :=
  if String.prefix pattern word
  then Some (Z.of_nat (String.length pattern), [])
  else None.

(** *** Sample data *)

Definition src_dir : IFileStat :=
  {| name := "src"; resource := "file:///w/src"; isDirectory := true |}.

Definition readme : IFileStat :=
  {| name := "README.md"; resource := "file:///w/README.md";
     isDirectory := false |}.

Definition a_ts : IFileStat :=
  {| name := "a.ts"; resource := "file:///w/a.ts"; isDirectory := false |}.

Definition b_ts : IFileStat :=
  {| name := "b.ts"; resource := "file:///w/b.ts"; isDirectory := false |}.

(** A file service that knows one folder, file:///w, with two children. *)
Definition resolve_w (u : URI) : option Resolved :=
  if String.eqb u "file:///w" then
    Some {| self := {| ref := 10;
                       stat := {| name := "w"; resource := "file:///w";
                                  isDirectory := true |} |};
            children := Some [{| ref := 11; stat := src_dir |};
                              {| ref := 12; stat := readme |}] |}
  else None.

End Picker.

(** ** Breadcrumbs control *)

Module Control.

Definition URI : Type := string.

(** [BreadcrumbElement]: a [FileElement], or one of the two [TreeElement]s
    that appear in a breadcrumb, each with its [id]. *)
Inductive BreadcrumbElement :=
| FileElement (uri : URI) (isFile : bool)
| OutlineGroup (id : string) (displayName : string)
| OutlineElement (id : string) (symbolName : string).

(** A [BreadcrumbsItem]: an [Item] of this control, or an item of another
    class. *)
Inductive BreadcrumbsItem :=
| Item (element : BreadcrumbElement)
| Foreign (tag : nat).

Section item.

(** [isEqual] from vs/base/common/resources, used as given. *)
Variable isEqual : URI → URI → bool.

(** [Item.equals], for the item holding [element]. *)
Definition equals (element : BreadcrumbElement) (other : BreadcrumbsItem)
    : bool :=
  match other with
  | Foreign _ => false
  | Item otherElement =>
      match element, otherElement with
      | FileElement u _, FileElement v _ => isEqual u v
      | FileElement _ _, _ => false
      | _, FileElement _ _ => false
      | (OutlineGroup id _ | OutlineElement id _),
        (OutlineGroup id' _ | OutlineElement id' _) => String.eqb id id'
      end
  end.

End item.

(** What [new EditorBreadcrumbsModel(...)] offers the control:
    [getElements()] and [isRelative()]. *)
Record EditorBreadcrumbsModel := {
  getElements : list BreadcrumbElement;
  isRelative : bool
}.

(** What [update] finds in the editor group: no active editor, one whose
    input has no resource, or one with a resource and the model built for
    it. *)
Inductive ActiveEditor :=
| NoEditor
| NoResource
| Editing (resource : URI) (model : EditorBreadcrumbsModel).

Inductive Disposable :=
| TheModel (resource : URI)
| TheListener (resource : URI).

(** The control: the [hidden] and [relative-path] classes of its DOM node,
    the [breadcrumbsVisible] context key, the disposables of the current
    model, and what the widget was last given to show and to reveal. *)
Record BreadcrumbsControl := {
  hidden : bool;
  relative_path : bool;
  _ckBreadcrumbsVisible : bool;
  _breadcrumbsDisposables : list Disposable;
  items : list BreadcrumbsItem;
  revealed : option BreadcrumbsItem
}.

(** The constructor: a node without classes, the key at its default. *)
Definition create : BreadcrumbsControl :=
  {| hidden := false; relative_path := false; _ckBreadcrumbsVisible := false;
     _breadcrumbsDisposables := []; items := []; revealed := None |}.

Definition isHidden (c : BreadcrumbsControl) : bool := hidden c.

Definition hide (c : BreadcrumbsControl) : BreadcrumbsControl :=
  {| hidden := true; relative_path := relative_path c;
     _ckBreadcrumbsVisible := false;
     _breadcrumbsDisposables := []; items := items c; revealed := revealed c |}.

(** [update]: the control afterwards and the boolean returned. *)
Definition update (input : ActiveEditor) (c : BreadcrumbsControl)
    : BreadcrumbsControl * bool :=
  let c := {| hidden := hidden c; relative_path := relative_path c;
              _ckBreadcrumbsVisible := _ckBreadcrumbsVisible c;
              _breadcrumbsDisposables := [];
              items := items c; revealed := revealed c |} in
  match input with
  | NoEditor | NoResource =>
      if negb (isHidden c) then (hide c, true) else (c, false)
  | Editing resource model =>
      let its := map Item (getElements model) in
      ({| hidden := false; relative_path := isRelative model;
          _ckBreadcrumbsVisible := true;
          _breadcrumbsDisposables := [TheModel resource; TheListener resource];
          items := its; revealed := last its |}, true)
  end.

(** A call that shows or hides the control. *)
Inductive Call :=
| Update (input : ActiveEditor)
| Hide.

Definition call (c : BreadcrumbsControl) (k : Call) : BreadcrumbsControl :=
  match k with
  | Update input => fst (update input c)
  | Hide => hide c
  end.

Definition has_resource (input : ActiveEditor) : bool :=
  match input with Editing _ _ => true | _ => false end.

End Control.

(** * Properties *)

(** ** DiagnosticsManager *)

Module DiagnosticsProps.
Import Diagnostics.

Section props.

Context {Diagnostic : Type}.
Variable asUrl : string → Uri.

Implicit Types (m : DiagnosticsManager Diagnostic) (f g : string)
  (d : list Diagnostic) (tr : list (Received Diagnostic)).

Lemma receive_validate m e : _validate (receive asUrl m e) = _validate m.
Proof.
  destruct e; simpl;
    unfold syntaxDiagnosticsReceived, semanticDiagnosticsReceived;
    by destruct (_validate m) eqn:Hv.
Qed.

Lemma receive_all_snoc tr e m :
  receive_all asUrl (tr ++ [e]) m = receive asUrl (receive_all asUrl tr m) e.
Proof. unfold receive_all. by rewrite foldl_app. Qed.

Lemma receive_all_validate tr m :
  _validate (receive_all asUrl tr m) = _validate m.
Proof.
  induction tr as [|e tr IH] using rev_ind; [done|].
  by rewrite receive_all_snoc, receive_validate.
Qed.

Lemma last_syntax_snoc f tr e :
  last_syntax f (tr ++ [e]) =
  match e with
  | Syntax g d => if decide (g = f) then Some d else last_syntax f tr
  | Semantic _ _ => last_syntax f tr
  end.
Proof.
  induction tr as [|e' tr IH]; simpl.
  - destruct e; [by case_decide|done].
  - rewrite IH. destruct e as [g d|g d]; [|done].
    case_decide; [done|]. by destruct (last_syntax f tr).
Qed.

Lemma last_semantic_snoc f tr e :
  last_semantic f (tr ++ [e]) =
  match e with
  | Semantic g d => if decide (g = f) then Some d else last_semantic f tr
  | Syntax _ _ => last_semantic f tr
  end.
Proof.
  induction tr as [|e' tr IH]; simpl.
  - destruct e; [done|by case_decide].
  - rewrite IH. destruct e as [g d|g d]; [done|].
    case_decide; [done|]. by destruct (last_semantic f tr).
Qed.

(** The mappings hold exactly the last list received of each kind. *)
Lemma mappings_hold_last tr f :
  let m := receive_all asUrl tr create in
  syntaxDiagnostics m !! f = last_syntax f tr
  ∧ semanticDiagnostics m !! f = last_semantic f tr.
Proof.
  induction tr as [|e tr [IHy IHs]] using rev_ind; [done|].
  simpl in *. rewrite receive_all_snoc, last_syntax_snoc, last_semantic_snoc.
  pose proof (receive_all_validate tr (create (Diagnostic := Diagnostic))) as Hv.
  destruct e as [g d|g d]; simpl;
    unfold syntaxDiagnosticsReceived, semanticDiagnosticsReceived;
    rewrite Hv; simpl; (split; [|]); try done;
    case_decide; subst; by rewrite ?lookup_insert_eq, ?lookup_insert_ne.
Qed.

(** One call keeps the published entry of [f] in step with the mappings,
    as long as the call is for [f] or for a file with another URI. *)
Lemma receive_keeps_merged m e f :
  _validate m = true →
  (asUrl (received_file e) = asUrl f → received_file e = f) →
  currentDiagnostics m !! asUrl f = merged m f →
  currentDiagnostics (receive asUrl m e) !! asUrl f
  = merged (receive asUrl m e) f.
Proof.
  intros Hv Hinj Hm.
  destruct e as [g d|g d]; simpl in *;
    unfold syntaxDiagnosticsReceived, semanticDiagnosticsReceived, merged,
      collection_set; rewrite Hv; simpl.
  - destruct (decide (g = f)) as [->|Hne].
    + rewrite !lookup_insert_eq. by destruct (semanticDiagnostics m !! f).
    + rewrite !lookup_insert_ne by naive_solver. done.
  - destruct (decide (g = f)) as [->|Hne].
    + rewrite !lookup_insert_eq. by destruct (syntaxDiagnostics m !! f).
    + rewrite !lookup_insert_ne by naive_solver. done.
Qed.

Lemma receive_all_keeps_merged tr f :
  (∀ e, e ∈ tr → asUrl (received_file e) = asUrl f → received_file e = f) →
  let m := receive_all asUrl tr create in
  currentDiagnostics m !! asUrl f = merged m f.
Proof.
  induction tr as [|e tr IH] using rev_ind; intros Hinj; [done|].
  simpl. rewrite receive_all_snoc. apply receive_keeps_merged.
  - by rewrite receive_all_validate.
  - apply Hinj. set_solver.
  - apply IH. intros e' He'. apply Hinj. set_solver.
Qed.

(** C1. After any sequence of [syntaxDiagnosticsReceived] and
    [semanticDiagnosticsReceived] calls on a fresh manager (validation
    on), for a file [f] whose URI is not shared by another file of the
    sequence: both mappings hold for [f] the list most recently received
    of that kind; what is published under [asUrl f] is the most recent
    semantic list followed by the most recent syntax list, a kind never
    received counting as empty; the entry exists as soon as one call was
    for [f].  In particular syntax [s1] then semantic [m1] for "a.ts"
    publishes [m1; s1]. *)
Theorem published_is_semantic_then_syntax tr f :
  (∀ e, e ∈ tr → asUrl (received_file e) = asUrl f → received_file e = f) →
  let m := receive_all asUrl tr create in
  (syntaxDiagnostics m !! f = last_syntax f tr
   ∧ semanticDiagnostics m !! f = last_semantic f tr)
  ∧ or_empty (currentDiagnostics m !! asUrl f)
    = or_empty (last_semantic f tr) ++ or_empty (last_syntax f tr)
  ∧ (is_Some (last_semantic f tr) ∨ is_Some (last_syntax f tr) →
     currentDiagnostics m !! asUrl f
     = Some (or_empty (last_semantic f tr) ++ or_empty (last_syntax f tr)))
  ∧ (∀ s1 m1,
       currentDiagnostics
         (receive_all asUrl [Syntax "a.ts" [s1]; Semantic "a.ts" [m1]] create)
       !! asUrl "a.ts" = Some [m1; s1]).
Proof.
  intros Hinj m.
  destruct (mappings_hold_last tr f) as [Hy Hs].
  pose proof (receive_all_keeps_merged tr f Hinj) as Hm.
  fold m in Hy, Hs, Hm. unfold merged in Hm. rewrite Hy, Hs in Hm.
  split; [done|]. repeat split.
  - rewrite Hm.
    by destruct (last_semantic f tr), (last_syntax f tr).
  - intros Hsome. rewrite Hm.
    destruct (last_semantic f tr), (last_syntax f tr); try done.
    by destruct Hsome as [[? ?]|[? ?]].
  - intros s1 m1. simpl. unfold collection_set.
    by rewrite lookup_insert_eq, lookup_insert_eq.
Qed.

(** *** The validation gate *)

Lemma receive_disabled m e : _validate m = false → receive asUrl m e = m.
Proof.
  intros Hv. destruct e; simpl;
    unfold syntaxDiagnosticsReceived, semanticDiagnosticsReceived;
    by rewrite Hv.
Qed.

(** C5, as the code has it.  [updateValidate false] on a manager whose
    validation is on empties both mappings and the published set in that
    one call and turns validation off; on a manager whose validation is
    already off it returns at once and changes nothing.  While validation
    is off both receive methods change nothing.  [updateValidate true]
    leaves the mappings and the published set as they are, and the next
    receive call for a file publishes for it again. *)
Theorem updateValidate_gate m :
  (_validate m = true →
     cleared (updateValidate false m)
     ∧ _validate (updateValidate false m) = false)
  ∧ (_validate m = false →
     updateValidate false m = m
     ∧ ∀ f d, syntaxDiagnosticsReceived asUrl f d m = m
              ∧ semanticDiagnosticsReceived asUrl f d m = m)
  ∧ (syntaxDiagnostics (updateValidate true m) = syntaxDiagnostics m
     ∧ semanticDiagnostics (updateValidate true m) = semanticDiagnostics m
     ∧ currentDiagnostics (updateValidate true m) = currentDiagnostics m
     ∧ _validate (updateValidate true m) = true)
  ∧ (∀ f d,
       currentDiagnostics
         (syntaxDiagnosticsReceived asUrl f d (updateValidate true m))
       !! asUrl f
       = Some (or_empty (semanticDiagnostics m !! f) ++ d)
       ∧ currentDiagnostics
           (semanticDiagnosticsReceived asUrl f d (updateValidate true m))
         !! asUrl f
         = Some (d ++ or_empty (syntaxDiagnostics m !! f))).
Proof.
  unfold cleared, updateValidate.
  split; [|split; [|split]].
  - intros ->. done.
  - intros Hv. rewrite Hv. split; [done|]. intros f d.
    split; [apply (receive_disabled m (Syntax f d) Hv)
           |apply (receive_disabled m (Semantic f d) Hv)].
  - by destruct (_validate m) eqn:Hv.
  - intros f d.
    unfold syntaxDiagnosticsReceived, semanticDiagnosticsReceived,
      collection_set.
    destruct (_validate m) eqn:Hv; simpl; rewrite ?Hv; simpl;
      by rewrite !lookup_insert_eq.
Qed.

(** C7. [configFileDiagnosticsReceived] publishes its list under the URI
    of the file and [delete_] removes the entry under that URI, from every
    state of the manager, so with validation on or off; neither touches
    the mappings or the flag. *)
Theorem config_and_delete_bypass_gate m f d :
  currentDiagnostics (configFileDiagnosticsReceived asUrl f d m) !! asUrl f
  = Some d
  ∧ currentDiagnostics (delete_ asUrl f m) !! asUrl f = None
  ∧ (∀ b, let m' := updateValidate b m in
       currentDiagnostics (configFileDiagnosticsReceived asUrl f d m')
       !! asUrl f = Some d
       ∧ currentDiagnostics (delete_ asUrl f m') !! asUrl f = None)
  ∧ _validate (configFileDiagnosticsReceived asUrl f d m) = _validate m
  ∧ _validate (delete_ asUrl f m) = _validate m.
Proof.
  unfold configFileDiagnosticsReceived, delete_, collection_set,
    collection_delete; simpl.
  rewrite lookup_insert_eq, lookup_delete_eq. repeat split.
  - by rewrite lookup_insert_eq.
  - by rewrite lookup_delete_eq.
Qed.

(** C10. [syntaxDiagnosticsReceived f d] leaves the semantic mapping as it
    is, leaves the syntax entry of every other file as it is, and leaves
    what is published under every URI other than [asUrl f] as it is;
    [semanticDiagnosticsReceived f d] likewise with the two mappings
    exchanged. *)
Theorem receive_frame m f d :
  (semanticDiagnostics (syntaxDiagnosticsReceived asUrl f d m)
   = semanticDiagnostics m
   ∧ (∀ g, g ≠ f →
        syntaxDiagnostics (syntaxDiagnosticsReceived asUrl f d m) !! g
        = syntaxDiagnostics m !! g)
   ∧ (∀ u, u ≠ asUrl f →
        currentDiagnostics (syntaxDiagnosticsReceived asUrl f d m) !! u
        = currentDiagnostics m !! u))
  ∧ (syntaxDiagnostics (semanticDiagnosticsReceived asUrl f d m)
     = syntaxDiagnostics m
     ∧ (∀ g, g ≠ f →
          semanticDiagnostics (semanticDiagnosticsReceived asUrl f d m) !! g
          = semanticDiagnostics m !! g)
     ∧ (∀ u, u ≠ asUrl f →
          currentDiagnostics (semanticDiagnosticsReceived asUrl f d m) !! u
          = currentDiagnostics m !! u)).
Proof.
  unfold syntaxDiagnosticsReceived, semanticDiagnosticsReceived,
    collection_set.
  destruct (_validate m); simpl; repeat split; try done;
    intros k Hk; by rewrite lookup_insert_ne.
Qed.

End props.

Lemma published_is_semantic_then_syntax_witness :
  currentDiagnostics sample !! plain "a.ts" = Some ([2] ++ [1]).
Proof.
  refine (proj1 (proj2 (proj2
    (published_is_semantic_then_syntax plain
       [Syntax "a.ts" [1]; Semantic "a.ts" [2]] "a.ts" _))) _).
  - intros e _ He. exact He.
  - left. by eexists.
Defined.

(** C5, as stated, fails: validation is switched off, a configuration-file
    diagnostic is published (that path has no gate), and
    [updateValidate false] is called again.  The call returns at its first
    test and the published set keeps its entry. *)
Lemma updateValidate_false_again_keeps_published :
  let m0 : DiagnosticsManager nat :=
    configFileDiagnosticsReceived plain "tsconfig.json" [7]
      (updateValidate false create) in
  _validate m0 = false
  ∧ currentDiagnostics (updateValidate false m0) !! "tsconfig.json" = Some [7]
  ∧ ¬ cleared (updateValidate false m0).
Proof.
  simpl. split; [done|]. split; [done|].
  intros (_ & _ & Hc). simpl in Hc.
  apply (f_equal (λ c, c !! "tsconfig.json")) in Hc.
  discriminate Hc.
Qed.

Lemma updateValidate_gate_witness :
  cleared (updateValidate false sample)
  ∧ updateValidate false (updateValidate false sample)
    = updateValidate false sample.
Proof.
  split.
  - apply (updateValidate_gate plain sample). reflexivity.
  - apply (updateValidate_gate plain (updateValidate false sample)).
    reflexivity.
Defined.

Lemma receive_frame_witness :
  syntaxDiagnostics (syntaxDiagnosticsReceived plain "b.ts" [3] sample) !! "a.ts"
  = syntaxDiagnostics sample !! "a.ts"
  ∧ currentDiagnostics (semanticDiagnosticsReceived plain "b.ts" [3] sample)
    !! "a.ts"
    = currentDiagnostics sample !! "a.ts".
Proof.
  split.
  - apply (receive_frame plain sample "b.ts" [3]). discriminate.
  - apply (receive_frame plain sample "b.ts" [3]). discriminate.
Defined.

End DiagnosticsProps.

(** ** Breadcrumbs file picker *)

Module PickerProps.
Import Picker.

Section sorter.

Variable compareFileNames : string → string → Z.

(** C9. The sorter puts a directory before a non-directory (a negative
    result when the directory is the first argument, a positive one when
    it is the second), and compares two elements of the same kind by
    [compareFileNames] on their names. *)
Theorem compare_directories_first (a b : IFileStat) :
  (isDirectory a = true → isDirectory b = false →
     (compare compareFileNames a b < 0)%Z)
  ∧ (isDirectory a = false → isDirectory b = true →
     (0 < compare compareFileNames a b)%Z)
  ∧ (isDirectory a = isDirectory b →
     compare compareFileNames a b = compareFileNames (name a) (name b)).
Proof.
  unfold compare. repeat split.
  - intros -> ->. simpl. lia.
  - intros -> ->. simpl. lia.
  - intros ->. by rewrite Bool.eqb_reflx.
Qed.

End sorter.

Lemma compare_directories_first_witness :
  (compare compare_codes src_dir readme < 0)%Z
  ∧ (0 < compare compare_codes readme src_dir)%Z
  ∧ compare compare_codes a_ts b_ts = compare_codes "a.ts" "b.ts".
Proof.
  split; [|split].
  - apply (compare_directories_first compare_codes src_dir readme); reflexivity.
  - apply (compare_directories_first compare_codes readme src_dir); reflexivity.
  - apply (compare_directories_first compare_codes a_ts b_ts); reflexivity.
Defined.

(** C8. When the first selected element is a file stat that is not a
    directory, the handler fires the pick emitter exactly once, with the
    resource of that element; when it is a directory the handler fires
    nothing. *)
Theorem selection_emits_files_only
    (e : ISelectionEvent) (p : BreadcrumbsFilePicker)
    (stat : IFileStat) (rest : list IFileStat) :
  selection e = stat :: rest →
  (isDirectory stat = false →
     fired (_onDidChangeSelection e p) = fired p ++ [resource stat])
  ∧ (isDirectory stat = true → _onDidChangeSelection e p = p).
Proof.
  intros Hsel. unfold _onDidChangeSelection. rewrite Hsel. simpl.
  split; intros ->; done.
Qed.

Lemma selection_emits_files_only_witness :
  fired (_onDidChangeSelection {| selection := [a_ts; src_dir] |}
           {| fired := [] |})
  = ["file:///w/a.ts"]
  ∧ _onDidChangeSelection {| selection := [src_dir; a_ts] |} {| fired := [] |}
    = {| fired := [] |}.
Proof.
  split.
  - apply (selection_emits_files_only {| selection := [a_ts; src_dir] |}
             {| fired := [] |} a_ts [src_dir]); reflexivity.
  - apply (selection_emits_files_only {| selection := [src_dir; a_ts] |}
             {| fired := [] |} src_dir [a_ts]); reflexivity.
Defined.

End PickerProps.

(** ** TagClosing *)

Module TagClosingProps.
Import TagClosing.

Implicit Types (s : State) (h : Host) (tc : TagClosing) (r : Request)
  (p q : Position) (ed : TextEditor).

(** *** The response continuation *)

Lemma isEqual_refl p : isEqual p p = true.
Proof. unfold isEqual. by rewrite !Nat.eqb_refl. Qed.

Lemma isEqual_eq p q : isEqual p q = true ↔ p = q.
Proof.
  unfold isEqual. destruct p as [l c], q as [l' c']; simpl.
  rewrite andb_true_iff, !Nat.eqb_eq.
  split; [by intros [-> ->]|by intros [= -> ->]].
Qed.

(** Nothing but a response with a body can change the state. *)
Lemma continuation_no_body r resp s :
  (∀ b, resp ≠ Body b) → continuation r resp s = s.
Proof.
  intros Hb. destruct s as [tc h], resp as [| |b]; try done.
  by destruct (Hb b).
Qed.

(** A stale response changes nothing. *)
Lemma continuation_stale r resp s : stale r s → continuation r resp s = s.
Proof.
  destruct s as [tc h]. unfold stale, continuation; simpl.
  destruct resp as [| |b]; [done..|].
  intros [Hd|[Hdoc|(ed & Hed & Hdoc & Hv)]].
  - by rewrite Hd.
  - destruct (_disposed tc); [done|].
    destruct (activeTextEditor h) as [ed|]; [|done].
    specialize (Hdoc ed eq_refl).
    by rewrite (proj2 (Nat.eqb_neq _ _)) by done.
  - destruct (_disposed tc); [done|]. rewrite Hed.
    rewrite (proj2 (Nat.eqb_neq (version _) _)) by done.
    by rewrite andb_false_r.
Qed.

(** A response with a body that is not stale inserts one snippet, on the
    active editor, at the positions [getInsertionPositions] gives. *)
Lemma continuation_fresh r b s :
  ¬ stale r s →
  ∃ ed, activeTextEditor (snd s) = Some ed
    ∧ doc_id (document ed) = c_document (r_closure r)
    ∧ version (document ed) = c_version (r_closure r)
    ∧ continuation r (Body b) s
      = (fst s,
         insertSnippet ed (getTagSnippet b)
           (getInsertionPositions ed (r_position r)) (snd s)).
Proof.
  destruct s as [tc h]. unfold stale, continuation; simpl. intros Hns.
  destruct (_disposed tc) eqn:Hd; [naive_solver|].
  destruct (activeTextEditor h) as [ed|] eqn:Hed; [|naive_solver].
  destruct (decide (doc_id (document ed) = c_document (r_closure r)))
    as [Hdoc|Hdoc]; [|naive_solver].
  destruct (decide (version (document ed) = c_version (r_closure r)))
    as [Hv|Hv]; [|naive_solver].
  exists ed. rewrite Hdoc, Hv, !Nat.eqb_refl. done.
Qed.

Lemma insertSnippet_grows ed sn l h : inserted (insertSnippet ed sn l h) ≠ inserted h.
Proof.
  unfold insertSnippet; simpl. intros Heq.
  apply (f_equal length) in Heq. rewrite length_app in Heq. simpl in Heq. lia.
Qed.

(** The closure armed by an edit records the document the edit was in and
    the version the document had when the edit was seen. *)
Lemma armTimer_records doc filepath lastChange s :
  let s' := armTimer doc filepath lastChange s in
  ∃ c, timers (snd s') !! nextTimer (snd s) = Some (100, c)
    ∧ c_document c = doc_id doc ∧ c_version c = version doc
    ∧ c_lastChange c = lastChange
    ∧ _timeout (fst s') = Some (nextTimer (snd s))
    ∧ nextTimer (snd s') = S (nextTimer (snd s)).
Proof.
  destruct s as [tc h]. unfold armTimer, setTimeout; simpl.
  eexists. rewrite lookup_insert_eq. done.
Qed.

(** C2. A response with a body resumes the callback.  If by then the
    component is disposed, or the active document is not the document of
    the edit (or no editor is active), or that document's version is not
    the one recorded when the edit was seen, the continuation returns the
    state it was given: no snippet is inserted, nothing else changes.  An
    insertion is made exactly when none of the three holds, and then it is
    one [insertSnippet] on the active editor.  The recorded version is the
    version of the document at the edit. *)
Theorem stale_response_is_discarded r b s :
  (stale r s → continuation r (Body b) s = s)
  ∧ (inserted (snd (continuation r (Body b) s)) ≠ inserted (snd s) ↔ ¬ stale r s)
  ∧ (¬ stale r s →
     ∃ ed, activeTextEditor (snd s) = Some ed
       ∧ continuation r (Body b) s
         = (fst s,
            insertSnippet ed (getTagSnippet b)
              (getInsertionPositions ed (r_position r)) (snd s)))
  ∧ (∀ doc filepath lastChange s0,
       ∃ c, timers (snd (armTimer doc filepath lastChange s0))
              !! nextTimer (snd s0) = Some (100, c)
         ∧ c_document c = doc_id doc ∧ c_version c = version doc).
Proof.
  split; [apply continuation_stale|]. split; [|split].
  - split.
    + intros Hins Hst. apply Hins. by rewrite continuation_stale.
    + intros Hns. destruct (continuation_fresh r b s Hns) as (ed & _ & _ & _ & ->).
      apply insertSnippet_grows.
  - intros Hns. destruct (continuation_fresh r b s Hns) as (ed & Hed & _ & _ & Hc).
    eauto.
  - intros doc filepath lastChange s0.
    destruct (armTimer_records doc filepath lastChange s0) as (c & ? & ? & ? & _).
    eauto.
Qed.

(** *** Where the snippet goes *)

Lemma getInsertionPositions_some ed p :
  (∃ q, q ∈ map active (selections ed) ∧ q = p) →
  getInsertionPositions ed p = AtAll (map active (selections ed)).
Proof.
  intros (q & Hq & ->). unfold getInsertionPositions.
  replace (existsb _ _) with true; [done|]. symmetry.
  apply existsb_exists. exists p. split; [by apply list_elem_of_In|].
  apply isEqual_refl.
Qed.

Lemma getInsertionPositions_none ed p :
  p ∉ map active (selections ed) → getInsertionPositions ed p = At p.
Proof.
  intros Hp. unfold getInsertionPositions.
  destruct (existsb _ _) eqn:He; [|done].
  apply existsb_exists in He as (q & Hq & Heq).
  apply isEqual_eq in Heq as ->. by apply list_elem_of_In in Hq.
Qed.

(** C4, as the code has it.  A response that passes the guard makes one
    insertion of the snippet built from the returned text.  When one of the
    editor's active cursor positions is the triggering position, the
    snippet goes to the active position of every selection of the editor,
    whether or not it is the triggering position; when none is, it goes to
    the triggering position alone.  The triggering position is among the
    targets in both cases. *)
Theorem insertion_targets r b s :
  ¬ stale r s →
  ∃ ed, activeTextEditor (snd s) = Some ed
    ∧ inserted (snd (continuation r (Body b) s))
      = inserted (snd s)
        ++ [{| ins_document := doc_id (document ed);
               ins_snippet := [Placeholder "" 0; Text (newText b)];
               ins_location := getInsertionPositions ed (r_position r) |}]
    ∧ (r_position r ∈ map active (selections ed) →
       getInsertionPositions ed (r_position r)
       = AtAll (map active (selections ed)))
    ∧ (r_position r ∉ map active (selections ed) →
       getInsertionPositions ed (r_position r) = At (r_position r))
    ∧ r_position r ∈ positions_of (getInsertionPositions ed (r_position r)).
Proof.
  intros Hns. destruct (continuation_fresh r b s Hns) as (ed & Hed & _ & _ & ->).
  exists ed. split; [done|]. split; [done|].
  split; [intros Hin; apply getInsertionPositions_some; eauto|].
  split; [apply getInsertionPositions_none|].
  destruct (decide (r_position r ∈ map active (selections ed))) as [Hin|Hnin].
  - rewrite getInsertionPositions_some by eauto. done.
  - rewrite getInsertionPositions_none by done. simpl. set_solver.
Qed.

Lemma stale_response_is_discarded_witness :
  continuation sent (Body closing_div) typed_on = typed_on.
Proof.
  apply (stale_response_is_discarded sent closing_div typed_on).
  right; right. exists (editing (app_tsx 6) [pos 0 6]).
  split; [reflexivity|]. split; [reflexivity|]. simpl. lia.
Defined.

Lemma two_cursors_not_stale : ¬ stale sent two_cursors.
Proof.
  intros [Hd|[Hdoc|(ed & Hed & _ & Hv)]].
  - discriminate Hd.
  - by apply (Hdoc (editing (app_tsx 5) [pos 0 5; pos 3 2])).
  - injection Hed as <-. by apply Hv.
Qed.

(** C4, as stated, fails: with cursors at 0:5 and 3:2 and the triggering
    position 0:5, the one insertion made names both cursors, so the cursor
    at 3:2, which is not the triggering position, receives the snippet. *)
Lemma second_cursor_receives_snippet :
  inserted (snd (continuation sent (Body closing_div) two_cursors))
  = [{| ins_document := 1;
        ins_snippet := [Placeholder "" 0; Text "</div>"];
        ins_location := AtAll [pos 0 5; pos 3 2] |}]
  ∧ r_position sent = pos 0 5
  ∧ isEqual (pos 3 2) (r_position sent) = false.
Proof. done. Qed.

Lemma insertion_targets_witness :
  ∃ ed, activeTextEditor (snd two_cursors) = Some ed
    ∧ getInsertionPositions ed (r_position sent)
      = AtAll (map active (selections ed)).
Proof.
  destruct (insertion_targets sent closing_div two_cursors two_cursors_not_stale)
    as (ed & Hed & _ & Hall & _).
  exists ed. split; [exact Hed|]. apply Hall.
  injection Hed as <-. simpl. set_solver.
Defined.

(** *** The edit handler *)

Lemma is_char_spec c o : is_char c o = true ↔ o = Some c.
Proof.
  destruct o as [c'|]; simpl; [|done].
  rewrite bool_decide_eq_true. split; [by intros ->|by intros [= ->]].
Qed.

Lemma is_char_false c o : is_char c o = false ↔ o ≠ Some c.
Proof.
  rewrite <-is_char_spec. by destruct (is_char c o).
Qed.

Lemma triggers_spec lc :
  triggers lc = true ↔
  rangeLength lc = 0
  ∧ (lastCharacter lc = Some ">"%char ∨ lastCharacter lc = Some "/"%char)
  ∧ secondToLastCharacter lc ≠ Some ">"%char.
Proof.
  unfold triggers.
  pose proof (is_char_spec ">" (lastCharacter lc)) as Hgt.
  pose proof (is_char_spec "/" (lastCharacter lc)) as Hsl.
  pose proof (is_char_spec ">" (secondToLastCharacter lc)) as Hprev.
  destruct (rangeLength lc) as [|n]; simpl;
    destruct (is_char ">" (lastCharacter lc)),
      (is_char "/" (lastCharacter lc)),
      (is_char ">" (secondToLastCharacter lc)); simpl;
    intuition (try discriminate; try lia; auto).
Qed.

Lemma cancelPending_nextTimer s :
  nextTimer (snd (cancelPending s)) = nextTimer (snd s).
Proof.
  destruct s as [tc h]. unfold cancelPending.
  by destruct (_timeout tc), (_cancel tc).
Qed.

(** After [cancelPending] the timer whose handle was held is no longer
    armed and the token source that was held is cancelled and dropped. *)
Lemma cancelPending_held s :
  (∀ id, _timeout (fst s) = Some id → ¬ timer_live (cancelPending s) id)
  ∧ (∀ k, _cancel (fst s) = Some k → ¬ token_live (cancelPending s) k)
  ∧ _cancel (fst (cancelPending s)) = None.
Proof.
  destruct s as [tc h]. unfold cancelPending, timer_live, token_live; simpl.
  repeat split.
  - intros id ->. destruct (_cancel tc); simpl;
      rewrite lookup_delete_eq; by intros [? ?].
  - intros k ->. simpl. destruct (_timeout tc); simpl;
      rewrite lookup_alter_eq; by destruct (tokens h !! k).
  - by destruct (_cancel tc) eqn:Hc.
Qed.

Lemma length_zero_nil {A} (l : list A) : (length l =? 0) = true ↔ l = [].
Proof. rewrite Nat.eqb_eq. by destruct l. Qed.

Lemma onDidChange_unfold toPath doc changes s fp lc :
  is_active (doc_id doc) (snd s) = true →
  resolved_path toPath (uri doc) = Some fp →
  last changes = Some lc →
  onDidChangeTextDocument toPath doc changes s
  = if triggers lc then armTimer doc fp lc (cancelPending s)
    else cancelPending s.
Proof.
  intros Ha Hp Hl. unfold onDidChangeTextDocument. rewrite Ha, Hp, Hl. simpl.
  destruct changes; [done|]. done.
Qed.

Lemma onDidChange_ignored toPath doc changes s :
  is_active (doc_id doc) (snd s) = false ∨ changes = []
  ∨ resolved_path toPath (uri doc) = None →
  onDidChangeTextDocument toPath doc changes s = s.
Proof.
  unfold onDidChangeTextDocument. intros [-> | [-> | ->]]; [done| |].
  - by rewrite orb_true_r.
  - by destruct (_ || _).
Qed.

(** C3, as the code has it.  A call arms a new 100 ms timer exactly when
    the document is the active one, the batch is not empty, the client
    resolves the document's URI to a path, and the last change replaces
    nothing and inserts a text whose last character is ">" or "/" and whose
    character before that is not ">".  Cancellation comes before that last
    test: in every call that gets past the first two returns, the timer
    whose handle is held is cleared and the held token source cancelled and
    dropped, and only then the last change decides whether a timer is
    armed; a batch that fails the test therefore ends with the pending
    timer and token gone.  A call that stops at one of the first two
    returns changes nothing. *)
Theorem onDidChange_arms_after_cancelling toPath doc changes s :
  let s' := onDidChangeTextDocument toPath doc changes s in
  (armed_new s s' ↔
     is_active (doc_id doc) (snd s) = true ∧ changes ≠ []
     ∧ is_Some (resolved_path toPath (uri doc))
     ∧ ∃ lc, last changes = Some lc ∧ rangeLength lc = 0
         ∧ (lastCharacter lc = Some ">"%char ∨ lastCharacter lc = Some "/"%char)
         ∧ secondToLastCharacter lc ≠ Some ">"%char)
  ∧ (is_active (doc_id doc) (snd s) = true →
     ∀ fp lc, resolved_path toPath (uri doc) = Some fp →
       last changes = Some lc →
       s' = (if triggers lc then armTimer doc fp lc (cancelPending s)
             else cancelPending s)
       ∧ (∀ id, _timeout (fst s) = Some id → ¬ timer_live (cancelPending s) id)
       ∧ (∀ k, _cancel (fst s) = Some k → ¬ token_live (cancelPending s) k)
       ∧ _cancel (fst (cancelPending s)) = None)
  ∧ (is_active (doc_id doc) (snd s) = false ∨ changes = []
     ∨ resolved_path toPath (uri doc) = None → s' = s).
Proof.
  intros s'. split; [|split].
  - destruct (is_active (doc_id doc) (snd s)) eqn:Ha; cycle 1.
    { subst s'. rewrite onDidChange_ignored by eauto.
      unfold armed_new. split; [lia|]. intros (? & _). done. }
    destruct (resolved_path toPath (uri doc)) as [fp|] eqn:Hp; cycle 1.
    { subst s'. rewrite onDidChange_ignored by eauto.
      unfold armed_new. split; [lia|]. intros (_ & _ & [? ?] & _). done. }
    destruct (last changes) as [lc|] eqn:Hl; cycle 1.
    { apply last_None in Hl. subst s'. rewrite onDidChange_ignored by eauto.
      unfold armed_new. split; [lia|]. intros (_ & ? & _). done. }
    subst s'. rewrite (onDidChange_unfold _ _ _ _ fp lc) by done.
    pose proof (triggers_spec lc) as Ht.
    destruct (triggers lc).
    + split.
      * intros _. split; [done|]. split; [by intros ->|]. split; [by eexists|].
        exists lc. split; [done|]. by apply Ht.
      * intros _.
        destruct (armTimer_records doc fp lc (cancelPending s))
          as (c & Hc & _ & _ & _ & Hto & Hn).
        rewrite cancelPending_nextTimer in Hc, Hto, Hn.
        unfold armed_new. eauto.
    + split.
      * unfold armed_new. rewrite cancelPending_nextTimer. lia.
      * intros (_ & _ & _ & lc' & [= <-] & Hlc). by apply Ht in Hlc.
  - intros Ha fp lc Hp Hl. split; [by apply onDidChange_unfold|].
    apply cancelPending_held.
  - apply onDidChange_ignored.
Qed.

(** C3, as stated, fails on the order of the steps: ">" was typed and its
    timer is armed; a letter typed next in the same document fails the
    trigger test, yet the armed timer is cleared.  Likewise with a request
    out: the letter cancels its token.  And a ">" typed in the active
    document arms nothing when the client has no path for that document. *)
Lemma plain_letter_cancels_pending :
  let letter := DidChangeTextDocument (app_tsx 6) [typed (pos 0 5) "a"] in
  (timer_live after_typing 1
   ∧ triggers (typed (pos 0 5) "a") = false
   ∧ ¬ timer_live (step file_toPath after_typing letter) 1)
  ∧ (token_live after_timer 0
     ∧ ¬ token_live (step file_toPath after_timer letter) 0)
  ∧ (is_active (doc_id (scratch 2)) (snd started_untitled) = true
     ∧ triggers (typed (pos 0 0) ">") = true
     ∧ ¬ armed_new started_untitled
           (onDidChangeTextDocument file_toPath (scratch 2)
              [typed (pos 0 0) ">"] started_untitled)).
Proof.
  simpl. unfold timer_live, token_live, armed_new.
  split; [|split].
  - split; [by eexists|]. split; [done|]. by intros [? ?].
  - split; [done|]. by intros ?.
  - split; [done|]. split; [done|]. by intros [? _].
Qed.

Lemma onDidChange_arms_after_cancelling_witness :
  armed_new started
    (onDidChangeTextDocument file_toPath (app_tsx 5) [typed (pos 0 4) ">"]
       started)
  ∧ onDidChangeTextDocument file_toPath (app_tsx 6) [typed (pos 0 5) "a"]
      after_typing
    = cancelPending after_typing.
Proof.
  split.
  - apply (onDidChange_arms_after_cancelling file_toPath (app_tsx 5)
             [typed (pos 0 4) ">"] started).
    split; [reflexivity|]. split; [discriminate|]. split; [by eexists|].
    exists (typed (pos 0 4) ">"). split; [reflexivity|]. split; [reflexivity|].
    split; [by left|discriminate].
  - refine (proj1 (proj1 (proj2 (onDidChange_arms_after_cancelling file_toPath
       (app_tsx 6) [typed (pos 0 5) "a"] after_typing)) _
       "/src/app.tsx" (typed (pos 0 5) "a") _ _)); reflexivity.
Defined.

(** *** One timer, one token, one request *)

Ltac unfold_host :=
  unfold timer_live, token_live, setTimeout, clearTimeout, newTokenSource,
    cancelAndDispose, execute, insertSnippet, with_timers, with_tokens,
    with_requests, with_subscribed, with_inserted, with_editor in *;
  simpl in *.

Lemma invariant_create (e : option TextEditor) :
  invariant (create (idle_host e)).
Proof.
  unfold invariant, create, idle_host. unfold_host.
  split; [|split; [|split; [|split]]].
  - by intros id [? ?].
  - done.
  - by intros id k [? ?].
  - done.
  - done.
Qed.

Lemma invariant_cancelPending s :
  invariant s → invariant (cancelPending s) ∧ quiet (cancelPending s).
Proof.
  destruct s as [tc h]. intros (I1 & I2 & I3 & I4 & I5).
  assert (quiet (cancelPending (tc, h))) as [Q1 Q2].
  { unfold quiet, cancelPending. unfold_host. split.
    - intros id Hid.
      assert (is_Some (timers h !! id) ∧ _timeout tc ≠ Some id) as [Hl Hne].
      { destruct (_timeout tc) as [id'|] eqn:Ht, (_cancel tc); simpl in *;
          rewrite ?lookup_delete_is_Some in Hid;
          (split; [by (apply Hid || exact Hid)|]);
          [intros [= ->]; by destruct Hid..
          |apply I1 in Hid; congruence|apply I1 in Hid; congruence]. }
      by apply Hne, I1.
    - intros k Hk. destruct (_cancel tc) as [k'|] eqn:Hc.
      + destruct (_timeout tc); simpl in *;
          (destruct (decide (k' = k)) as [->|Hne];
           [rewrite lookup_alter_eq in Hk; by destruct (tokens h !! k)
           |rewrite lookup_alter_ne in Hk by done;
            apply I2 in Hk; congruence]).
      + destruct (_timeout tc); simpl in *; by apply I2 in Hk. }
  split; [|done]. unfold invariant. split; [|split; [|split; [|split]]].
  - intros id Hid. by destruct (Q1 id).
  - intros k Hk. by destruct (Q2 k).
  - intros id k Hid. by destruct (Q1 id).
  - unfold cancelPending. destruct (_timeout tc), (_cancel tc); apply I4.
  - unfold cancelPending. destruct (_timeout tc), (_cancel tc); apply I5.
Qed.

Lemma invariant_armTimer doc fp lc s :
  invariant s → quiet s → invariant (armTimer doc fp lc s).
Proof.
  destruct s as [tc h]. intros (I1 & I2 & I3 & I4 & I5) [Q1 Q2].
  unfold invariant, armTimer. unfold_host.
  split; [|split; [|split; [|split]]]; [| | |apply I4|apply I5].
  - intros id Hid. destruct (decide (nextTimer h = id)) as [->|Hne]; [done|].
    rewrite lookup_insert_ne in Hid by done. by destruct (Q1 id).
  - intros k Hk. by destruct (Q2 k).
  - intros id k _ Hk. by destruct (Q2 k).
Qed.

Lemma invariant_onDidChange toPath doc changes s :
  invariant s → invariant (onDidChangeTextDocument toPath doc changes s).
Proof.
  intros Hinv. unfold onDidChangeTextDocument.
  destruct (_ || _); [done|].
  destruct (resolved_path toPath (uri doc)) as [fp|]; [|done].
  destruct (invariant_cancelPending s Hinv) as [Hc Hq].
  destruct (last changes) as [lc|]; [|done].
  destruct (triggers lc); [|done]. by apply invariant_armTimer.
Qed.

Lemma invariant_timer s id delay c :
  invariant s → timers (snd s) !! id = Some (delay, c) →
  invariant (timerCallback c (fst s, clearTimeout id (snd s))).
Proof.
  destruct s as [tc h]. intros (I1 & I2 & I3 & I4 & I5) Hid.
  assert (∀ id', ¬ is_Some (delete id (timers h) !! id')) as Hnone.
  { intros id' [Hne Hl]%lookup_delete_is_Some.
    apply I1 in Hl.
    assert (_timeout (fst (tc, h)) = Some id) as Hheld by (apply I1; by eexists).
    congruence. }
  assert (∀ k, tokens h !! k ≠ Some Live) as Hdead.
  { intros k. apply (I3 id k). by eexists. }
  unfold invariant, timerCallback. unfold_host.
  destruct (_disposed tc); unfold_host.
  - split; [|split; [|split; [|split]]]; [| | |apply I4|apply I5].
    + intros id' Hl. by destruct (Hnone id').
    + apply I2.
    + intros id' k Hl. by destruct (Hnone id').
  - split; [|split; [|split; [|split]]].
    + intros id' Hl. by destruct (Hnone id').
    + intros k Hk. destruct (decide (nextToken h = k)) as [->|Hne]; [done|].
      rewrite lookup_insert_ne in Hk by done. by destruct (Hdead k).
    + intros id' k Hl. by destruct (Hnone id').
    + intros rid r Hr. destruct (decide (nextRequest h = rid)) as [<-|Hne].
      * rewrite lookup_insert_eq in Hr. injection Hr as <-. simpl. lia.
      * rewrite lookup_insert_ne in Hr by done. apply I4 in Hr. lia.
    + intros rid1 rid2 r1 r2 H1 H2 Heq.
      destruct (decide (nextRequest h = rid1)) as [E1|N1],
               (decide (nextRequest h = rid2)) as [E2|N2]; [congruence| | |].
      * subst rid1. rewrite lookup_insert_eq in H1. injection H1 as <-.
        rewrite lookup_insert_ne in H2 by done. apply I4 in H2.
        simpl in *. lia.
      * subst rid2. rewrite lookup_insert_eq in H2. injection H2 as <-.
        rewrite lookup_insert_ne in H1 by done. apply I4 in H1.
        simpl in *. lia.
      * rewrite lookup_insert_ne in H1, H2 by done. by eapply I5.
Qed.

Lemma invariant_response s rid r resp :
  invariant s →
  invariant
    (continuation r resp
       (fst s, with_requests (delete rid (requests (snd s)))
                 (nextRequest (snd s)) (snd s))).
Proof.
  destruct s as [tc h]. intros (I1 & I2 & I3 & I4 & I5).
  assert (invariant
            (tc, with_requests (delete rid (requests h)) (nextRequest h) h))
    as Hdel.
  { unfold invariant. unfold_host.
    split; [|split; [|split; [|split]]]; [done..| |].
    - intros rid' r' [_ Hr]%lookup_delete_Some. by eapply I4.
    - intros rid1 rid2 r1 r2 [_ H1]%lookup_delete_Some
        [_ H2]%lookup_delete_Some. by eapply I5. }
  unfold continuation. simpl. destruct resp as [| |b]; [done..|].
  destruct (_disposed tc); [done|].
  destruct (activeTextEditor h) as [ed|]; [|done].
  destruct (_ && _); [|done]. exact Hdel.
Qed.

Lemma invariant_dispose s : invariant s → invariant (dispose s).
Proof.
  intros Hinv. destruct (invariant_cancelPending s Hinv) as [Hc [Q1 Q2]].
  destruct s as [tc h]. destruct Hinv as (I1 & I2 & I3 & I4 & I5).
  assert (∀ id, ¬ timer_live (dispose (tc, h)) id) as D1.
  { intros id Hl. apply (Q1 id). revert Hl.
    unfold dispose, cancelPending. unfold_host.
    by destruct (_timeout tc), (_cancel tc). }
  assert (∀ k, ¬ token_live (dispose (tc, h)) k) as D2.
  { intros k Hl. apply (Q2 k). revert Hl.
    unfold dispose, cancelPending. unfold_host.
    by destruct (_timeout tc), (_cancel tc). }
  unfold invariant. split; [|split; [|split; [|split]]].
  - intros id Hl. by destruct (D1 id).
  - intros k Hl. by destruct (D2 k).
  - intros id k Hl. by destruct (D1 id).
  - unfold dispose. destruct (_timeout tc), (_cancel tc); apply I4.
  - unfold dispose. destruct (_timeout tc), (_cancel tc); apply I5.
Qed.

Lemma invariant_step toPath s e : invariant s → invariant (step toPath s e).
Proof.
  intros Hinv. destruct e as [doc changes|id|rid resp| |e]; simpl.
  - destruct (subscribed (snd s)); [|done]. by apply invariant_onDidChange.
  - destruct (timers (snd s) !! id) as [[delay c]|] eqn:Hid; [|done].
    by eapply invariant_timer.
  - destruct (requests (snd s) !! rid) as [r|]; [|done].
    by apply invariant_response.
  - by apply invariant_dispose.
  - destruct s as [tc h]. exact Hinv.
Qed.

Lemma invariant_reachable toPath s : reachable toPath s → invariant s.
Proof.
  intros (e0 & evs & ->).
  induction evs as [|e evs IH] using rev_ind.
  - apply invariant_create.
  - unfold run. rewrite foldl_app. simpl. by apply invariant_step.
Qed.

(** C6. In every reachable state at most one timer is armed, at most one
    token source is live, and at most one pending request carries a live
    token; no token source is live while a timer is armed, so the callback
    never creates a token source next to a live one.  An edit that gets to
    arm a timer first clears the timer held and cancels and drops the token
    source held, leaving nothing pending, and only then arms: afterwards
    the new timer is the only one armed and no token source is live. *)
Theorem at_most_one_in_flight toPath s :
  reachable toPath s →
  (∀ i j, timer_live s i → timer_live s j → i = j)
  ∧ (∀ k l, token_live s k → token_live s l → k = l)
  ∧ (∀ n1 n2 : nat, request_live s n1 → request_live s n2 → n1 = n2)
  ∧ (∀ i k, timer_live s i → ¬ token_live s k)
  ∧ (∀ doc changes fp lc,
       is_active (doc_id doc) (snd s) = true →
       resolved_path toPath (uri doc) = Some fp →
       last changes = Some lc → triggers lc = true →
       let s' := onDidChangeTextDocument toPath doc changes s in
       quiet (cancelPending s)
       ∧ s' = armTimer doc fp lc (cancelPending s)
       ∧ (∀ i, timer_live s' i ↔ i = nextTimer (snd s))
       ∧ (∀ k, ¬ token_live s' k)
       ∧ (∀ n : nat, ¬ request_live s' n)).
Proof.
  intros Hr. pose proof (invariant_reachable toPath s Hr) as Hinv.
  destruct (Hinv) as (I1 & I2 & I3 & I4 & I5).
  split; [|split; [|split; [|split]]].
  - intros i j Hi Hj. apply I1 in Hi, Hj. congruence.
  - intros k l Hk Hl. apply I2 in Hk, Hl. congruence.
  - intros n1 n2 (q1 & Hq1 & Hl1) (q2 & Hq2 & Hl2).
    apply I2 in Hl1, Hl2. eapply I5; [done..|congruence].
  - exact I3.
  - intros doc changes fp lc Ha Hp Hl Ht s'.
    destruct (invariant_cancelPending s Hinv) as [Hc [Q1 Q2]].
    assert (s' = armTimer doc fp lc (cancelPending s)) as Hs'.
    { subst s'. rewrite (onDidChange_unfold _ _ _ _ fp lc) by done.
      by rewrite Ht. }
    assert (∀ k, ¬ token_live s' k) as Hdead.
    { intros k. rewrite Hs'. destruct (cancelPending s) as [tc0 h0].
      apply (Q2 k). }
    split; [done|]. split; [done|]. split; [|split; [done|]].
    + intros i. rewrite Hs'. pose proof (cancelPending_nextTimer s) as Hn.
      destruct (cancelPending s) as [tc0 h0]. simpl in Hn. rewrite <-Hn.
      unfold armTimer. unfold_host. split.
      * intros Hi. destruct (decide (nextTimer h0 = i)) as [->|Hne]; [done|].
        rewrite lookup_insert_ne in Hi by done. by destruct (Q1 i).
      * intros ->. rewrite lookup_insert_eq. by eexists.
    + intros n (q & _ & Hl'). by destruct (Hdead (r_token q)).
Qed.

Lemma at_most_one_in_flight_witness :
  (∀ i j, timer_live after_typing i → timer_live after_typing j → i = j)
  ∧ (∀ k l, token_live after_typing k → token_live after_typing l → k = l).
Proof.
  assert (reachable file_toPath after_typing) as Hr.
  { eexists _, _. reflexivity. }
  destruct (at_most_one_in_flight file_toPath after_typing Hr) as (H1 & H2 & _).
  exact (conj H1 H2).
Defined.

End TagClosingProps.

(** ** DiagnosticsManager: laws of the calls *)

Module DiagnosticsLaws.
Import Diagnostics DiagnosticsProps.

Section laws.

Context {Diagnostic : Type}.
Variable asUrl : string → Uri.

Implicit Types (m : DiagnosticsManager Diagnostic) (f g : string)
  (d : list Diagnostic) (e : Received Diagnostic)
  (c : Call Diagnostic) (cs : list (Call Diagnostic)).

Lemma call_all_snoc cs c m :
  call_all asUrl (cs ++ [c]) m = call asUrl (call_all asUrl cs m) c.
Proof. unfold call_all. by rewrite foldl_app. Qed.

Lemma call_keeps_off_empty m c :
  (_validate m = false → mappings_empty m) →
  _validate (call asUrl m c) = false → mappings_empty (call asUrl m c).
Proof.
  unfold mappings_empty. intros Hm.
  destruct c as [e|f d|f|b|]; simpl.
  - destruct (_validate m) eqn:Hv.
    + by rewrite receive_validate, Hv.
    + rewrite receive_disabled by done. intros _. by apply Hm.
  - exact Hm.
  - exact Hm.
  - unfold updateValidate.
    destruct (_validate m) eqn:Hv, b; simpl; rewrite ?Hv; try done.
  - done.
Qed.

(** X1. Whatever public methods are called on a manager, in whatever
    order, validation being off means both mappings are empty: nothing
    received earlier is kept across a switch-off, and nothing received
    while off is stored. *)
Theorem off_means_empty cs :
  let m := call_all asUrl cs create in
  _validate m = false →
  syntaxDiagnostics m = ∅ ∧ semanticDiagnostics m = ∅.
Proof.
  induction cs as [|c cs IH] using rev_ind; [done|].
  simpl in *. rewrite call_all_snoc. by apply call_keeps_off_empty.
Qed.

Lemma in_step_cleared b :
  in_step (Diagnostic := Diagnostic) asUrl
    {| syntaxDiagnostics := ∅; semanticDiagnostics := ∅;
       currentDiagnostics := ∅; _validate := b |}.
Proof.
  split; [done|]. simpl. intros u [? Hu]. by rewrite lookup_empty in Hu.
Qed.

Lemma call_keeps_in_step m c :
  (∀ f g, asUrl f = asUrl g → f = g) →
  writes_collection_only c = false →
  in_step asUrl m → in_step asUrl (call asUrl m c).
Proof.
  intros Hinj Hc [Hm Hu]. destruct c as [e|f d|f|b|]; try done; simpl.
  - destruct (_validate m) eqn:Hv; [|by rewrite receive_disabled].
    split.
    + intros f. apply receive_keeps_merged; [done| |done].
      intros Heq. by apply Hinj.
    + intros u. destruct e as [g d|g d]; simpl;
        unfold syntaxDiagnosticsReceived, semanticDiagnosticsReceived,
          collection_set; rewrite Hv; simpl;
        (destruct (decide (asUrl g = u)) as [<-|Hne];
         [by eexists|rewrite lookup_insert_ne by done; apply Hu]).
  - unfold updateValidate.
    destruct (Bool.eqb (_validate m) b); [done|].
    destruct b; simpl; [done|]. apply in_step_cleared.
  - apply in_step_cleared.
Qed.

(** X2. As long as [configFileDiagnosticsReceived] and [delete_] are not
    used and distinct files have distinct URIs, the collection is the
    merge of the two mappings after any sequence of receive calls,
    validation switches and re-initialisations: under the URI of every
    file stands the semantic list followed by the syntax list, absent when
    both are, and nothing stands under any other URI. *)
Theorem collection_mirrors_mappings cs :
  (∀ f g, asUrl f = asUrl g → f = g) →
  (∀ c, c ∈ cs → writes_collection_only c = false) →
  let m := call_all asUrl cs create in
  (∀ f, currentDiagnostics m !! asUrl f = merged m f)
  ∧ (∀ u, is_Some (currentDiagnostics m !! u) → ∃ f, u = asUrl f).
Proof.
  intros Hinj. induction cs as [|c cs IH] using rev_ind; intros Hcs.
  - apply (in_step_cleared true).
  - simpl. rewrite call_all_snoc. apply call_keeps_in_step; [done| |].
    + apply Hcs, elem_of_app. right. by apply list_elem_of_singleton.
    + apply IH. intros c' Hc'. apply Hcs, elem_of_app. by left.
Qed.

(** X3. A syntax call and a semantic call commute when they are for the
    same file or for files with different URIs: either order leaves the
    same mappings and the same collection. *)
Theorem syntax_semantic_commute m f g y s :
  f = g ∨ asUrl f ≠ asUrl g →
  syntaxDiagnosticsReceived asUrl f y (semanticDiagnosticsReceived asUrl g s m)
  = semanticDiagnosticsReceived asUrl g s (syntaxDiagnosticsReceived asUrl f y m).
Proof.
  intros Hfg.
  unfold syntaxDiagnosticsReceived, semanticDiagnosticsReceived,
    collection_set.
  destruct (_validate m) eqn:Hv; simpl; rewrite ?Hv; simpl; [|done].
  f_equal. destruct Hfg as [<-|Hne].
  - by rewrite !lookup_insert_eq, !insert_insert_eq.
  - assert (f ≠ g) by congruence.
    rewrite !lookup_insert_ne by done. by apply insert_insert_ne.
Qed.

(** X4. Receiving the same list for the same file again changes nothing:
    a repeated call leaves the manager as the first one left it. *)
Theorem receive_idempotent m e :
  receive asUrl (receive asUrl m e) e = receive asUrl m e.
Proof.
  destruct e as [f d|f d]; simpl;
    unfold syntaxDiagnosticsReceived, semanticDiagnosticsReceived,
      collection_set;
    destruct (_validate m) eqn:Hv; simpl; rewrite ?Hv; simpl; try done;
    f_equal; by rewrite ?lookup_insert_eq, ?insert_insert_eq.
Qed.

(** X5. With validation on, a receive call for a file overrides what
    [delete_] or [configFileDiagnosticsReceived] did to that file's
    published entry: the manager ends as if the receive call had come
    alone.  In particular the stored list of the other kind is published
    again after a [delete_]. *)
Theorem receive_overrides_direct_writes m e d :
  _validate m = true →
  receive asUrl (delete_ asUrl (received_file e) m) e = receive asUrl m e
  ∧ receive asUrl
      (configFileDiagnosticsReceived asUrl (received_file e) d m) e
    = receive asUrl m e.
Proof.
  intros Hv. destruct e as [f y|f y]; simpl;
    unfold syntaxDiagnosticsReceived, semanticDiagnosticsReceived,
      configFileDiagnosticsReceived, delete_, collection_set,
      collection_delete; simpl; rewrite Hv; simpl;
    (split; f_equal; [apply insert_delete_eq|apply insert_insert_eq]).
Qed.

End laws.

Lemma collection_mirrors_mappings_witness :
  let m := call_all plain
             [Receive (Syntax "a.ts" [1]); UpdateValidate false;
              UpdateValidate true; Receive (Semantic "a.ts" [2])] create in
  currentDiagnostics m !! plain "a.ts" = merged m "a.ts".
Proof.
  simpl. refine (proj1 (collection_mirrors_mappings plain
    [Receive (Syntax "a.ts" [1]); UpdateValidate false;
     UpdateValidate true; Receive (Semantic "a.ts" [2])] _ _) "a.ts").
  - intros f g Hfg. exact Hfg.
  - intros c Hc. repeat (apply elem_of_cons in Hc as [->|Hc]; [reflexivity|]).
    by apply elem_of_nil in Hc.
Defined.

Lemma off_means_empty_witness :
  syntaxDiagnostics
    (call_all plain [Receive (Syntax "a.ts" [1]); UpdateValidate false;
                     Receive (Semantic "a.ts" [2])] (create (Diagnostic := nat)))
  = ∅.
Proof.
  apply (off_means_empty plain
           [Receive (Syntax "a.ts" [1]); UpdateValidate false;
            Receive (Semantic "a.ts" [2])]).
  reflexivity.
Defined.

Lemma syntax_semantic_commute_witness :
  syntaxDiagnosticsReceived plain "a.ts" [1]
    (semanticDiagnosticsReceived plain "b.ts" [2] sample)
  = semanticDiagnosticsReceived plain "b.ts" [2]
      (syntaxDiagnosticsReceived plain "a.ts" [1] sample).
Proof.
  apply (syntax_semantic_commute plain sample "a.ts" "b.ts" [1] [2]).
  right. discriminate.
Defined.

Lemma receive_overrides_direct_writes_witness :
  receive plain (delete_ plain "a.ts" sample) (Syntax "a.ts" [5])
  = receive plain sample (Syntax "a.ts" [5]).
Proof.
  apply (receive_overrides_direct_writes plain sample (Syntax "a.ts" [5]) []).
  reflexivity.
Defined.

End DiagnosticsLaws.

(** ** TagClosing: lifecycle *)

Module TagClosingLife.
Import TagClosing TagClosingProps.

Implicit Types (s : State) (h : Host) (tc : TagClosing) (r : Request)
  (c : Closure).

Lemma reachable_ind toPath (P : State → Prop) :
  (∀ e, P (create (idle_host e))) →
  (∀ s ev, P s → P (step toPath s ev)) →
  ∀ s, reachable toPath s → P s.
Proof.
  intros Hinit Hstep s (e0 & evs & ->).
  induction evs as [|ev evs IH] using rev_ind; [apply Hinit|].
  unfold run. rewrite foldl_app. apply Hstep, IH.
Qed.

(** What [cancelPending] leaves alone, and that it arms nothing. *)
Lemma cancelPending_frame s :
  requests (snd (cancelPending s)) = requests (snd s)
  ∧ nextRequest (snd (cancelPending s)) = nextRequest (snd s)
  ∧ inserted (snd (cancelPending s)) = inserted (snd s)
  ∧ activeTextEditor (snd (cancelPending s)) = activeTextEditor (snd s)
  ∧ subscribed (snd (cancelPending s)) = subscribed (snd s)
  ∧ _disposed (fst (cancelPending s)) = _disposed (fst s)
  ∧ (∀ id x, timers (snd (cancelPending s)) !! id = Some x →
       timers (snd s) !! id = Some x).
Proof.
  destruct s as [tc h]. unfold cancelPending. unfold_host.
  destruct (_timeout tc), (_cancel tc); simpl; repeat split; try done;
    by intros id x [_ Hx]%lookup_delete_Some.
Qed.

Lemma dispose_frame s :
  requests (snd (dispose s)) = requests (snd s)
  ∧ nextRequest (snd (dispose s)) = nextRequest (snd s)
  ∧ inserted (snd (dispose s)) = inserted (snd s)
  ∧ subscribed (snd (dispose s)) = false
  ∧ _disposed (fst (dispose s)) = true
  ∧ (∀ id x, timers (snd (dispose s)) !! id = Some x →
       timers (snd s) !! id = Some x).
Proof.
  destruct s as [tc h]. unfold dispose. unfold_host.
  destruct (_timeout tc), (_cancel tc); simpl; repeat split; try done;
    by intros id x [_ Hx]%lookup_delete_Some.
Qed.

Lemma resolved_path_nonempty toPath u fp :
  resolved_path toPath u = Some fp → fp ≠ EmptyString.
Proof.
  unfold resolved_path. destruct (toPath u) as [[|a p]|]; [done| |done].
  by intros [= <-].
Qed.

(** *** Requests are sent for triggering edits only *)

Lemma carries_onDidChange toPath doc changes s :
  carries_triggers s →
  carries_triggers (onDidChangeTextDocument toPath doc changes s).
Proof.
  intros [Ht Hr]. unfold onDidChangeTextDocument.
  destruct (_ || _); [done|].
  destruct (resolved_path toPath (uri doc)) as [fp|] eqn:Hp; [|done].
  destruct (cancelPending_frame s) as (Er & _ & _ & _ & _ & _ & Et).
  assert (carries_triggers (cancelPending s)) as Hc.
  { split; [intros id delay c Hid; eapply Ht; by apply Et|].
    rewrite Er. apply Hr. }
  destruct (last changes) as [lc|]; [|done].
  destruct (triggers lc) eqn:Htr; [|done].
  destruct Hc as [Ht' Hr']. destruct (cancelPending s) as [tc0 h0].
  unfold armTimer, carries_triggers. unfold_host. split; [|done].
  intros id delay c Hid. destruct (decide (nextTimer h0 = id)) as [<-|Hne].
  - rewrite lookup_insert_eq in Hid. injection Hid as <- <-.
    split; [done|]. unfold closure_of_trigger; simpl.
    eauto using resolved_path_nonempty.
  - rewrite lookup_insert_ne in Hid by done. by eapply Ht'.
Qed.

Lemma carries_step toPath s ev :
  carries_triggers s → carries_triggers (step toPath s ev).
Proof.
  intros Hc. destruct ev as [doc changes|id|rid resp| |e]; simpl.
  - destruct (subscribed (snd s)); [|done]. by apply carries_onDidChange.
  - destruct (timers (snd s) !! id) as [[delay c]|] eqn:Hid; [|done].
    destruct s as [tc h], Hc as [Ht Hr]. simpl in *.
    destruct (Ht id delay c Hid) as [_ Hok].
    unfold timerCallback. unfold_host.
    destruct (_disposed tc); unfold_host; unfold carries_triggers; simpl.
    + split; [|done]. intros id' d' c' [_ H']%lookup_delete_Some. by eapply Ht.
    + split; [intros id' d' c' [_ H']%lookup_delete_Some; by eapply Ht|].
      intros rid r Hrid. destruct (decide (nextRequest h = rid)) as [<-|Hne].
      * rewrite lookup_insert_eq in Hrid. by injection Hrid as <-.
      * rewrite lookup_insert_ne in Hrid by done. by eapply Hr.
  - destruct (requests (snd s) !! rid) as [r|] eqn:Hrid; [|done].
    destruct s as [tc h], Hc as [Ht Hr]. simpl in *.
    assert (carries_triggers
              (tc, with_requests (delete rid (requests h)) (nextRequest h) h))
      as Hdel.
    { split; [done|]. simpl.
      intros rid' r' [_ H']%lookup_delete_Some. by eapply Hr. }
    unfold continuation. destruct resp as [| |b]; [done..|].
    destruct (_disposed tc); [done|]. simpl.
    destruct (activeTextEditor h); [|done]. destruct (_ && _); [|done].
    exact Hdel.
  - destruct (dispose_frame s) as (Er & _ & _ & _ & _ & Et).
    destruct Hc as [Ht Hr]. split; [|rewrite Er; apply Hr].
    intros id delay c Hid. eapply Ht. by apply Et.
  - by destruct s.
Qed.

(** X6. In every reachable state each armed timer has the 100 ms delay,
    and each pending request was made for an edit that passed the trigger
    test: the change replaced nothing, its text ends in ">" or "/" and
    has no ">" before that.  The request names a non-empty path and asks
    at the position right after the inserted text: the line where the
    change starts, the start column plus the length of the text. *)
Theorem requests_follow_triggers toPath s :
  reachable toPath s →
  (∀ id delay c, timers (snd s) !! id = Some (delay, c) → delay = 100)
  ∧ (∀ rid r, requests (snd s) !! rid = Some r →
       let lc := c_lastChange (r_closure r) in
       r_file r ≠ EmptyString
       ∧ line (r_position r) = line (start (range lc))
       ∧ character (r_position r)
         = character (start (range lc)) + String.length (text lc)
       ∧ rangeLength lc = 0
       ∧ (lastCharacter lc = Some ">"%char ∨ lastCharacter lc = Some "/"%char)
       ∧ secondToLastCharacter lc ≠ Some ">"%char).
Proof.
  intros Hr.
  assert (carries_triggers s) as [Ht Hq].
  { revert s Hr. apply reachable_ind; [|intros; by apply carries_step].
    intros e. split; simpl; intros ? ?; by rewrite lookup_empty. }
  split; [intros id delay c Hid; by apply (Ht id delay c)|].
  intros rid r Hrid lc.
  destruct (Hq rid r Hrid) as ((Htr & Hst & Hfp) & Hfile & Hpos).
  apply triggers_spec in Htr as (Hlen & Hlast & Hprev).
  rewrite Hfile, Hpos. unfold closure_position; simpl. rewrite Hst.
  done.
Qed.

(** *** Insertions are answers to requests *)

Lemma armTimer_frame doc fp lc s :
  requests (snd (armTimer doc fp lc s)) = requests (snd s)
  ∧ nextRequest (snd (armTimer doc fp lc s)) = nextRequest (snd s)
  ∧ inserted (snd (armTimer doc fp lc s)) = inserted (snd s)
  ∧ activeTextEditor (snd (armTimer doc fp lc s)) = activeTextEditor (snd s).
Proof. by destruct s as [tc h]. Qed.

Lemma onDidChange_frame toPath doc changes s :
  let s' := onDidChangeTextDocument toPath doc changes s in
  requests (snd s') = requests (snd s)
  ∧ nextRequest (snd s') = nextRequest (snd s)
  ∧ inserted (snd s') = inserted (snd s)
  ∧ activeTextEditor (snd s') = activeTextEditor (snd s).
Proof.
  simpl. unfold onDidChangeTextDocument.
  destruct (_ || _); [done|].
  destruct (resolved_path toPath (uri doc)) as [fp|]; [|done].
  destruct (cancelPending_frame s) as (E1 & E2 & E3 & E4 & _).
  destruct (last changes) as [lc|]; [|done].
  destruct (triggers lc); [|done].
  destruct (armTimer_frame doc fp lc (cancelPending s)) as (A1 & A2 & A3 & A4).
  by rewrite A1, A2, A3, A4.
Qed.

Lemma size_insert_le {A} (m : gmap nat A) i x : size (<[i:=x]> m) ≤ S (size m).
Proof. rewrite map_size_insert. destruct (m !! i); simpl; lia. Qed.

Lemma size_delete_present {A} (m : gmap nat A) i x :
  m !! i = Some x → S (size (delete i m)) = size m.
Proof.
  intros Hi. rewrite map_size_delete, Hi.
  destruct (size m) as [|n] eqn:Hn; [|done].
  apply map_size_empty_iff in Hn. subst m. by rewrite lookup_empty in Hi.
Qed.

Lemma accounted_step toPath s ev : accounted s → accounted (step toPath s ev).
Proof.
  intros [Hn Hs]. destruct ev as [doc changes|id|rid resp| |e]; simpl.
  - destruct (subscribed (snd s)); [|done].
    destruct (onDidChange_frame toPath doc changes s) as (E1 & E2 & E3 & _).
    unfold accounted. by rewrite E1, E2, E3.
  - destruct (timers (snd s) !! id) as [[delay c]|]; [|done].
    destruct s as [tc h]. unfold timerCallback, accounted in *. unfold_host.
    destruct (_disposed tc); unfold_host; [done|]. split; [|done].
    pose proof (size_insert_le (requests h) (nextRequest h)
      {| r_file := c_filepath c; r_position := closure_position c;
         r_token := nextToken h; r_closure := c |}). lia.
  - destruct (requests (snd s) !! rid) as [r|] eqn:Hrid; [|done].
    destruct s as [tc h]. unfold accounted in *. simpl in *.
    pose proof (size_delete_present _ _ _ Hrid) as Hsz.
    assert (accounted
              (tc, with_requests (delete rid (requests h)) (nextRequest h) h))
      as Hdel.
    { unfold accounted. simpl. split; [lia|done]. }
    unfold continuation. destruct resp as [| |b]; [done..|].
    destruct (_disposed tc); [done|]. simpl.
    destruct (activeTextEditor h); [|done]. destruct (_ && _); [|done].
    simpl. rewrite length_app. simpl. split; [lia|].
    apply Forall_app. split; [done|]. apply Forall_singleton. by eexists.
  - destruct (dispose_frame s) as (E1 & E2 & E3 & _).
    unfold accounted. by rewrite E1, E2, E3.
  - by destruct s.
Qed.

(** X7. In every reachable state of a component created on an idle host,
    the insertions made so far and the requests still pending together
    number at most the requests sent: no snippet is inserted without a
    request of its own having been answered, and none twice for one
    request.  Every insertion made is the final tab stop followed by a
    text. *)
Theorem insertions_answer_requests toPath s :
  reachable toPath s →
  length (inserted (snd s)) + size (requests (snd s)) ≤ nextRequest (snd s)
  ∧ Forall (λ i, ∃ t, ins_snippet i = [Placeholder "" 0; Text t])
      (inserted (snd s)).
Proof.
  revert s. apply reachable_ind; [|intros; by apply accounted_step].
  intros e. split; [|by apply Forall_nil]. simpl. rewrite map_size_empty. lia.
Qed.

(** *** Disposal is final *)

Lemma dispose_token_live s k : token_live (dispose s) k → token_live s k.
Proof.
  destruct s as [tc h]. unfold dispose. unfold_host.
  destruct (_timeout tc), (_cancel tc) as [k'|]; simpl; try done;
    (destruct (decide (k' = k)) as [->|Hne];
     [rewrite lookup_alter_eq; by destruct (tokens h !! k)
     |by rewrite lookup_alter_ne]).
Qed.

Lemma quiet_dispose s : quiet s → quiet (dispose s).
Proof.
  intros [Q1 Q2]. destruct (dispose_frame s) as (_ & _ & _ & _ & _ & Et).
  split.
  - intros id [x Hx]. apply (Q1 id). exists x. by apply Et.
  - intros k Hk. apply (Q2 k). by apply dispose_token_live.
Qed.

Lemma dispose_shuts_down s : invariant s → shut_down (dispose s).
Proof.
  intros Hinv. destruct (dispose_frame s) as (_ & _ & _ & Hsub & Hd & Et).
  split; [done|]. split; [done|].
  destruct (invariant_dispose s Hinv) as (I1 & I2 & _).
  split.
  - intros id Hl. apply I1 in Hl. by destruct s.
  - intros k Hl. apply I2 in Hl. by destruct s.
Qed.

Lemma shut_down_step toPath s ev :
  shut_down s →
  shut_down (step toPath s ev)
  ∧ inserted (snd (step toPath s ev)) = inserted (snd s)
  ∧ nextRequest (snd (step toPath s ev)) = nextRequest (snd s).
Proof.
  intros (Hd & Hsub & Hq). destruct ev as [doc changes|id|rid resp| |e]; simpl.
  - by rewrite Hsub.
  - destruct (timers (snd s) !! id) as [x|] eqn:Hid; [|done].
    destruct Hq as [Q1 _]. destruct (Q1 id). by eexists.
  - destruct (requests (snd s) !! rid) as [r|]; [|done].
    destruct s as [tc h]. simpl in *. unfold continuation.
    destruct resp as [| |b]; rewrite ?Hd; done.
  - destruct (dispose_frame s) as (_ & E2 & E3 & Hsub' & Hd' & _).
    split; [|done]. split; [done|]. split; [done|]. by apply quiet_dispose.
  - by destruct s.
Qed.

(** X8. Once a reachable component is disposed nothing brings it back:
    whatever events follow (edits, timers, responses still on their way,
    editor changes, another dispose), no timer is armed, no token source is
    live, no request is sent and no snippet is inserted. *)
Theorem disposal_is_final toPath s evs :
  reachable toPath s →
  let s' := run toPath evs (dispose s) in
  (∀ id, ¬ timer_live s' id)
  ∧ (∀ k, ¬ token_live s' k)
  ∧ inserted (snd s') = inserted (snd s)
  ∧ nextRequest (snd s') = nextRequest (snd s)
  ∧ _disposed (fst s') = true.
Proof.
  intros Hr. simpl.
  assert (shut_down (run toPath evs (dispose s))
          ∧ inserted (snd (run toPath evs (dispose s))) = inserted (snd s)
          ∧ nextRequest (snd (run toPath evs (dispose s)))
            = nextRequest (snd s)) as (Hs & Hi & Hn).
  { induction evs as [|ev evs (IHs & IHi & IHn)] using rev_ind.
    - destruct (dispose_frame s) as (_ & E2 & E3 & _).
      split; [|done]. by apply dispose_shuts_down, (invariant_reachable toPath).
    - unfold run in *. rewrite foldl_app. simpl.
      destruct (shut_down_step toPath _ ev IHs) as (Hs' & Hi' & Hn').
      split; [done|]. by rewrite Hi', Hn'. }
  destruct Hs as (Hd & _ & Q1 & Q2). done.
Qed.

(** *** Debounce *)

Lemma qualifying_edit toPath doc changes fp lc s :
  invariant s →
  is_active (doc_id doc) (snd s) = true →
  resolved_path toPath (uri doc) = Some fp →
  last changes = Some lc → triggers lc = true →
  let s' := onDidChangeTextDocument toPath doc changes s in
  invariant s'
  ∧ (∀ i, timer_live s' i ↔ i = nextTimer (snd s))
  ∧ nextTimer (snd s') = S (nextTimer (snd s))
  ∧ (∃ c, timers (snd s') !! nextTimer (snd s) = Some (100, c)
       ∧ c_document c = doc_id doc ∧ c_version c = version doc
       ∧ c_lastChange c = lc).
Proof.
  intros Hinv Ha Hp Hl Ht s'.
  split; [by apply invariant_onDidChange|].
  destruct (invariant_cancelPending s Hinv) as [_ [Q1 _]].
  subst s'. rewrite (onDidChange_unfold _ _ _ _ fp lc) by done. rewrite Ht.
  destruct (armTimer_records doc fp lc (cancelPending s))
    as (c & Hc & Hdoc & Hv & Hlc & _ & Hn).
  rewrite cancelPending_nextTimer in Hc, Hn.
  split; [|split; [done|by exists c]].
  intros i. split.
  - intros Hi. destruct (decide (i = nextTimer (snd s))) as [|Hne]; [done|].
    destruct (Q1 i). revert Hi. pose proof (cancelPending_nextTimer s) as Hn'.
    destruct (cancelPending s) as [tc0 h0]. simpl in Hn'.
    unfold armTimer. unfold_host. rewrite Hn'.
    by rewrite lookup_insert_ne.
  - intros ->. unfold timer_live. rewrite Hc. by eexists.
Qed.

(** X9. Two triggering edits in a row, with no timer firing in between,
    leave one armed timer, the second edit's, holding the second change
    and the version seen at the second edit.  The handle the first edit
    got is dead: a firing under it finds no timer and changes nothing.  No
    request has been sent for either edit yet. *)
Theorem second_edit_replaces_first toPath s doc1 ch1 fp1 lc1 doc2 ch2 fp2 lc2 :
  reachable toPath s →
  is_active (doc_id doc1) (snd s) = true →
  resolved_path toPath (uri doc1) = Some fp1 →
  last ch1 = Some lc1 → triggers lc1 = true →
  is_active (doc_id doc2) (snd s) = true →
  resolved_path toPath (uri doc2) = Some fp2 →
  last ch2 = Some lc2 → triggers lc2 = true →
  let s2 := onDidChangeTextDocument toPath doc2 ch2
              (onDidChangeTextDocument toPath doc1 ch1 s) in
  (∀ i, timer_live s2 i ↔ i = S (nextTimer (snd s)))
  ∧ (∃ c, timers (snd s2) !! S (nextTimer (snd s)) = Some (100, c)
       ∧ c_document c = doc_id doc2 ∧ c_version c = version doc2
       ∧ c_lastChange c = lc2)
  ∧ step toPath s2 (TimerFired (nextTimer (snd s))) = s2
  ∧ requests (snd s2) = requests (snd s)
  ∧ nextRequest (snd s2) = nextRequest (snd s).
Proof.
  intros Hr Ha1 Hp1 Hl1 Ht1 Ha2 Hp2 Hl2 Ht2 s2.
  pose proof (invariant_reachable toPath s Hr) as Hinv.
  destruct (qualifying_edit toPath doc1 ch1 fp1 lc1 s Hinv Ha1 Hp1 Hl1 Ht1)
    as (Hinv1 & _ & Hn1 & _).
  destruct (onDidChange_frame toPath doc1 ch1 s) as (R1 & N1 & _ & E1).
  set (s1 := onDidChangeTextDocument toPath doc1 ch1 s) in *.
  assert (is_active (doc_id doc2) (snd s1) = true) as Ha2'.
  { unfold is_active in *. by rewrite E1. }
  destruct (qualifying_edit toPath doc2 ch2 fp2 lc2 s1 Hinv1 Ha2' Hp2 Hl2 Ht2)
    as (_ & Hlive & _ & Hc).
  destruct (onDidChange_frame toPath doc2 ch2 s1) as (R2 & N2 & _ & _).
  fold s2 in Hlive, Hc, R2, N2. rewrite Hn1 in Hlive, Hc.
  split; [done|]. split; [done|]. split; [|by rewrite R2, N2].
  simpl. destruct (timers (snd s2) !! nextTimer (snd s)) as [x|] eqn:Hx; [|done].
  assert (nextTimer (snd s) = S (nextTimer (snd s))) as Habs.
  { apply Hlive. by eexists. }
  lia.
Qed.

(** *** From the keystroke to the snippet *)

Lemma edit_arms toPath doc changes fp lc s :
  is_active (doc_id doc) (snd s) = true →
  resolved_path toPath (uri doc) = Some fp →
  last changes = Some lc → triggers lc = true →
  let s1 := onDidChangeTextDocument toPath doc changes s in
  timers (snd s1) !! nextTimer (snd s)
  = Some (100, {| c_document := doc_id doc; c_filepath := fp;
                  c_lastChange := lc; c_rangeStart := start (range lc);
                  c_version := version doc |})
  ∧ _disposed (fst s1) = _disposed (fst s)
  ∧ activeTextEditor (snd s1) = activeTextEditor (snd s)
  ∧ inserted (snd s1) = inserted (snd s)
  ∧ nextRequest (snd s1) = nextRequest (snd s).
Proof.
  intros Ha Hp Hl Ht s1. subst s1.
  rewrite (onDidChange_unfold _ _ _ _ fp lc) by done. rewrite Ht.
  destruct (cancelPending_frame s) as (_ & En & Ei & Ee & _ & Ed & _).
  pose proof (cancelPending_nextTimer s) as Et.
  destruct (cancelPending s) as [tc0 h0]. simpl in *.
  rewrite <-Et, <-En, <-Ei, <-Ee, <-Ed.
  unfold armTimer, setTimeout, with_timers; simpl.
  by rewrite lookup_insert_eq.
Qed.

Lemma timer_sends toPath s id delay c :
  timers (snd s) !! id = Some (delay, c) →
  _disposed (fst s) = false →
  let s' := step toPath s (TimerFired id) in
  requests (snd s') !! nextRequest (snd s)
  = Some {| r_file := c_filepath c; r_position := closure_position c;
            r_token := nextToken (snd s); r_closure := c |}
  ∧ _disposed (fst s') = false
  ∧ activeTextEditor (snd s') = activeTextEditor (snd s)
  ∧ inserted (snd s') = inserted (snd s).
Proof.
  intros Hid Hd. destruct s as [tc h]. simpl in Hid, Hd.
  cbn [step fst snd]. rewrite Hid.
  unfold timerCallback, clearTimeout, newTokenSource, execute, with_timers,
    with_tokens, with_requests.
  cbn [_disposed]. rewrite Hd. cbn [fst snd requests nextRequest _disposed
    activeTextEditor inserted nextToken].
  by rewrite lookup_insert_eq.
Qed.

Lemma answer_inserts toPath s rid r b ed :
  requests (snd s) !! rid = Some r →
  _disposed (fst s) = false →
  activeTextEditor (snd s) = Some ed →
  c_document (r_closure r) = doc_id (document ed) →
  version (document ed) = c_version (r_closure r) →
  inserted (snd (step toPath s (ResponseArrived rid (Body b))))
  = inserted (snd s)
    ++ [{| ins_document := doc_id (document ed);
           ins_snippet := getTagSnippet b;
           ins_location := getInsertionPositions ed (r_position r) |}].
Proof.
  intros Hrid Hd Hed Hdoc Hv. destruct s as [tc h]. simpl in Hrid, Hd, Hed.
  cbn [step fst snd]. rewrite Hrid.
  unfold continuation, with_requests. cbn [activeTextEditor].
  rewrite Hd, Hed, Hdoc, Hv, !Nat.eqb_refl. done.
Qed.

(** X17. The whole path, undisturbed: the component is live, a triggering
    edit arrives for the active document at its current version, the timer
    fires, and the request is answered with a body while the editor is as
    it was.  Then exactly one snippet is inserted, into that document: the
    final tab stop followed by the returned text, at the position right
    after the typed text (or at all cursors, as [getInsertionPositions]
    decides). *)
Theorem keystroke_to_snippet toPath s doc changes fp lc ed b :
  subscribed (snd s) = true →
  _disposed (fst s) = false →
  activeTextEditor (snd s) = Some ed →
  doc_id (document ed) = doc_id doc →
  version (document ed) = version doc →
  resolved_path toPath (uri doc) = Some fp →
  last changes = Some lc → triggers lc = true →
  inserted
    (snd (run toPath
            [DidChangeTextDocument doc changes;
             TimerFired (nextTimer (snd s));
             ResponseArrived (nextRequest (snd s)) (Body b)] s))
  = inserted (snd s)
    ++ [{| ins_document := doc_id doc;
           ins_snippet := [Placeholder "" 0; Text (newText b)];
           ins_location :=
             getInsertionPositions ed
               {| line := line (start (range lc));
                  character := character (start (range lc))
                               + String.length (text lc) |} |}].
Proof.
  intros Hsub Hd Hed Hid Hv Hp Hl Ht.
  assert (is_active (doc_id doc) (snd s) = true) as Ha.
  { unfold is_active. rewrite Hed. by apply Nat.eqb_eq. }
  change (run toPath _ s) with
    (step toPath
       (step toPath (step toPath s (DidChangeTextDocument doc changes))
          (TimerFired (nextTimer (snd s))))
       (ResponseArrived (nextRequest (snd s)) (Body b))).
  assert (step toPath s (DidChangeTextDocument doc changes)
          = onDidChangeTextDocument toPath doc changes s) as ->.
  { cbn [step]. by rewrite Hsub. }
  destruct (edit_arms toPath doc changes fp lc s Ha Hp Hl Ht)
    as (Ht1 & Hd1 & He1 & Hi1 & Hn1).
  set (s1 := onDidChangeTextDocument toPath doc changes s) in *.
  rewrite Hd in Hd1.
  destruct (timer_sends toPath s1 _ _ _ Ht1 Hd1) as (Hr2 & Hd2 & He2 & Hi2).
  set (s2 := step toPath s1 (TimerFired (nextTimer (snd s)))) in *.
  rewrite Hn1 in Hr2. rewrite He1, Hed in He2.
  rewrite (answer_inserts toPath s2 _ _ b ed Hr2 Hd2 He2); [|by simpl..].
  rewrite Hi2, Hi1, Hid. done.
Qed.

Lemma keystroke_to_snippet_witness :
  inserted
    (snd (run file_toPath
            [DidChangeTextDocument (app_tsx 4) [typed (pos 0 4) ">"];
             TimerFired (nextTimer (snd started));
             ResponseArrived (nextRequest (snd started)) (Body closing_div)]
            started))
  = inserted (snd started)
    ++ [{| ins_document := 1;
           ins_snippet := [Placeholder "" 0; Text "</div>"];
           ins_location :=
             getInsertionPositions (editing (app_tsx 4) [pos 0 4])
               {| line := 0; character := 4 + 1 |} |}].
Proof.
  apply (keystroke_to_snippet file_toPath started (app_tsx 4)
           [typed (pos 0 4) ">"] "/src/app.tsx" (typed (pos 0 4) ">")
           (editing (app_tsx 4) [pos 0 4]) closing_div); reflexivity.
Defined.

Lemma requests_follow_triggers_witness :
  character (r_position sent)
  = character (start (range (c_lastChange (r_closure sent))))
    + String.length (text (c_lastChange (r_closure sent))).
Proof.
  assert (requests (snd after_timer) !! 0 = Some sent) as Hrid by reflexivity.
  assert (reachable file_toPath after_timer) as Hr.
  { exists (Some (editing (app_tsx 4) [pos 0 4])),
      [EditorChanged (Some (editing (app_tsx 5) [pos 0 5]));
       DidChangeTextDocument (app_tsx 5) [typed (pos 0 4) ">"];
       TimerFired 1].
    reflexivity. }
  apply (requests_follow_triggers file_toPath after_timer Hr) in Hrid.
  apply Hrid.
Defined.

Lemma insertions_answer_requests_witness :
  length (inserted (snd after_timer)) + size (requests (snd after_timer))
  ≤ nextRequest (snd after_timer).
Proof.
  assert (reachable file_toPath after_timer) as Hr.
  { exists (Some (editing (app_tsx 4) [pos 0 4])),
      [EditorChanged (Some (editing (app_tsx 5) [pos 0 5]));
       DidChangeTextDocument (app_tsx 5) [typed (pos 0 4) ">"];
       TimerFired 1].
    reflexivity. }
  apply (insertions_answer_requests file_toPath after_timer Hr).
Defined.

Lemma disposal_is_final_witness :
  inserted
    (snd (run file_toPath [ResponseArrived 0 (Body closing_div)]
            (dispose after_timer)))
  = inserted (snd after_timer).
Proof.
  assert (reachable file_toPath after_timer) as Hr.
  { exists (Some (editing (app_tsx 4) [pos 0 4])),
      [EditorChanged (Some (editing (app_tsx 5) [pos 0 5]));
       DidChangeTextDocument (app_tsx 5) [typed (pos 0 4) ">"];
       TimerFired 1].
    reflexivity. }
  apply (disposal_is_final file_toPath after_timer
           [ResponseArrived 0 (Body closing_div)] Hr).
Defined.

Lemma second_edit_replaces_first_witness :
  step file_toPath
    (onDidChangeTextDocument file_toPath (app_tsx 6) [typed (pos 0 5) "/"]
       (onDidChangeTextDocument file_toPath (app_tsx 5) [typed (pos 0 4) ">"]
          started))
    (TimerFired (nextTimer (snd started)))
  = onDidChangeTextDocument file_toPath (app_tsx 6) [typed (pos 0 5) "/"]
      (onDidChangeTextDocument file_toPath (app_tsx 5) [typed (pos 0 4) ">"]
         started).
Proof.
  assert (reachable file_toPath started) as Hr.
  { exists (Some (editing (app_tsx 4) [pos 0 4])), []. reflexivity. }
  apply (second_edit_replaces_first file_toPath started
           (app_tsx 5) [typed (pos 0 4) ">"] "/src/app.tsx" (typed (pos 0 4) ">")
           (app_tsx 6) [typed (pos 0 5) "/"] "/src/app.tsx" (typed (pos 0 5) "/")
           Hr); reflexivity.
Defined.

End TagClosingLife.

(** ** Breadcrumbs file picker: renderer, initial selection, data source *)

Module PickerMore.
Import Picker.

Section renderer.

Variable fuzzyScore : string → string → FuzzyScore.

Implicit Types (nav pre post : list IFileStat) (e x top : IFileStat)
  (t : Z * list nat) (pattern : string).

(** What the loop has found after the elements of [nav]. *)
Lemma scan_finds_top pattern nav sc0 :
  match foldl (visit fuzzyScore pattern) (sc0, None, None) nav with
  | (_, None, topElement) =>
      (∀ e, e ∈ nav → fuzzyScore pattern (name e) = None)
      ∧ topElement = last nav
  | (_, Some best, topElement) =>
      ∃ pre top post,
        nav = pre ++ top :: post ∧ topElement = Some top
        ∧ fuzzyScore pattern (name top) = Some best
        ∧ (∀ x t, x ∈ pre → fuzzyScore pattern (name x) = Some t →
             (fst t < fst best)%Z)
        ∧ (∀ x t, x ∈ post → fuzzyScore pattern (name x) = Some t →
             (fst t ≤ fst best)%Z)
  end.
Proof.
  induction nav as [|e nav IH] using rev_ind.
  - simpl. split; [|done]. intros e He. by apply elem_of_nil in He.
  - rewrite foldl_app. simpl.
    destruct (foldl (visit fuzzyScore pattern) (sc0, None, None) nav)
      as [[scores topScore] topElement].
    unfold visit. destruct topScore as [best|]; simpl.
    + destruct IH as (pre & top & post & -> & -> & Htop & Hpre & Hpost).
      destruct (fuzzyScore pattern (name e)) as [sc|] eqn:Hsc.
      * destruct (fst best <? fst sc)%Z eqn:Hlt.
        -- apply Z.ltb_lt in Hlt.
           exists (pre ++ top :: post), e, []. split; [done|].
           split; [done|]. split; [done|]. split.
           ++ intros x t [Hx|Hx]%elem_of_app Hxt.
              ** specialize (Hpre x t Hx Hxt). lia.
              ** apply elem_of_cons in Hx as [->|Hx].
                 --- rewrite Htop in Hxt. injection Hxt as <-. lia.
                 --- specialize (Hpost x t Hx Hxt). lia.
           ++ intros x t Hx. by apply elem_of_nil in Hx.
        -- apply Z.ltb_ge in Hlt.
           exists pre, top, (post ++ [e]). split; [by rewrite <-app_assoc|].
           split; [done|]. split; [done|]. split; [done|].
           intros x t [Hx|Hx]%elem_of_app Hxt; [by eapply Hpost|].
           apply list_elem_of_singleton in Hx as ->.
           rewrite Hsc in Hxt. by injection Hxt as <-.
      * exists pre, top, (post ++ [e]). split; [by rewrite <-app_assoc|].
        split; [done|]. split; [done|]. split; [done|].
        intros x t [Hx|Hx]%elem_of_app Hxt; [by eapply Hpost|].
        apply list_elem_of_singleton in Hx as ->. congruence.
    + destruct IH as [Hnone _].
      destruct (fuzzyScore pattern (name e)) as [sc|] eqn:Hsc.
      * exists nav, e, []. split; [done|]. split; [done|]. split; [done|].
        split.
        -- intros x t Hx Hxt. rewrite (Hnone x Hx) in Hxt. done.
        -- intros x t Hx. by apply elem_of_nil in Hx.
      * split; [|by rewrite last_snoc].
        intros x [Hx|Hx]%elem_of_app; [by apply Hnone|].
        by apply list_elem_of_singleton in Hx as ->.
Qed.

(** X10. [updateHighlights] returns nothing for an empty tree.  When some
    name matches the pattern it returns a matching element whose score no
    other element exceeds, and of several with that score the first in
    navigation order.  When no name matches it still returns an element:
    the last one visited. *)
Theorem updateHighlights_top pattern nav (r : FileRenderer) :
  let res := snd (updateHighlights fuzzyScore nav pattern r) in
  (nav = [] → res = None)
  ∧ ((∀ e, e ∈ nav → fuzzyScore pattern (name e) = None) → res = last nav)
  ∧ (∀ e t, e ∈ nav → fuzzyScore pattern (name e) = Some t →
       ∃ pre top post best,
         nav = pre ++ top :: post ∧ res = Some top
         ∧ fuzzyScore pattern (name top) = Some best
         ∧ (fst t ≤ fst best)%Z
         ∧ (∀ x t', x ∈ pre → fuzzyScore pattern (name x) = Some t' →
              (fst t' < fst best)%Z)).
Proof.
  simpl. unfold updateHighlights.
  pose proof (scan_finds_top pattern nav (_scores r)) as Hscan.
  destruct (foldl (visit fuzzyScore pattern) (_scores r, None, None) nav)
    as [[scores topScore] topElement]. simpl.
  split; [|split].
  - intros ->. destruct topScore as [best|].
    + destruct Hscan as (pre & top & post & Hnil & _). by destruct pre.
    + by destruct Hscan as [_ ->].
  - intros Hnone. destruct topScore as [best|]; [|by destruct Hscan as [_ ->]].
    destruct Hscan as (pre & top & post & -> & _ & Htop & _).
    rewrite Hnone in Htop; [done|].
    apply elem_of_app. right. by apply elem_of_cons; left.
  - intros e t He Het. destruct topScore as [best|].
    + destruct Hscan as (pre & top & post & -> & -> & Htop & Hpre & Hpost).
      exists pre, top, post, best. split; [done|]. split; [done|].
      split; [done|]. split; [|done].
      apply elem_of_app in He as [He|He].
      * specialize (Hpre e t He Het). lia.
      * apply elem_of_cons in He as [->|He].
        -- rewrite Htop in Het. injection Het as <-. lia.
        -- by eapply Hpost.
    + destruct Hscan as [Hnone _]. rewrite (Hnone e He) in Het. done.
Qed.

Lemma scan_scores pattern nav sc0 (u : URI) :
  (foldl (visit fuzzyScore pattern) (sc0, None, None) nav).1.1 !! u
  = match last (filter (λ e, resource e = u) nav) with
    | Some e => Some (fuzzyScore pattern (name e))
    | None => sc0 !! u
    end.
Proof.
  induction nav as [|e nav IH] using rev_ind; [done|].
  rewrite foldl_app, filter_app. simpl.
  destruct (foldl (visit fuzzyScore pattern) (sc0, None, None) nav)
    as [[scores topScore] topElement]. simpl in IH.
  assert ((visit fuzzyScore pattern (scores, topScore, topElement) e).1.1
          = <[resource e := fuzzyScore pattern (name e)]> scores) as ->.
  { unfold visit. by destruct (takes_over _ _). }
  rewrite filter_cons, filter_nil. case_decide as Hu.
  - subst u. by rewrite last_snoc, lookup_insert_eq.
  - by rewrite app_nil_r, lookup_insert_ne.
Qed.

(** X11. After [updateHighlights] the renderer holds, for every resource
    of the tree, the score of the name of the element with that resource
    (the last such element, should several share it), a non-match
    included; the scores kept for other resources are untouched. *)
Theorem updateHighlights_scores pattern nav (r : FileRenderer) (u : URI) :
  _scores (fst (updateHighlights fuzzyScore nav pattern r)) !! u
  = match last (filter (λ e, resource e = u) nav) with
    | Some e => Some (fuzzyScore pattern (name e))
    | None => _scores r !! u
    end.
Proof.
  unfold updateHighlights.
  rewrite <-(scan_scores pattern nav (_scores r) u).
  by destruct (foldl (visit fuzzyScore pattern) (_scores r, None, None) nav)
    as [[scores topScore] topElement].
Qed.

End renderer.

Lemma updateHighlights_top_witness :
  snd (updateHighlights prefix_score [src_dir; readme] "zz" {| _scores := ∅ |})
  = Some readme.
Proof.
  apply (updateHighlights_top prefix_score "zz" [src_dir; readme]
           {| _scores := ∅ |}).
  intros e He.
  apply elem_of_cons in He as [->|He]; [reflexivity|].
  apply elem_of_cons in He as [->|He]; [reflexivity|].
  by apply elem_of_nil in He.
Defined.

Lemma updateHighlights_scores_witness :
  _scores (fst (updateHighlights prefix_score [src_dir; readme] "s"
                  {| _scores := ∅ |}))
  !! "file:///w/README.md" = Some None.
Proof.
  exact (updateHighlights_scores prefix_score "s" [src_dir; readme]
           {| _scores := ∅ |} "file:///w/README.md").
Defined.

(** *** Initial selection *)

Section initial_selection.

Variable isEqual : URI → URI → bool.

(** X12. [_getInitialSelection] returns the first element, in navigation
    order, whose resource [isEqual] accepts for the given URI, and nothing
    when no element is accepted. *)
Theorem initial_selection_is_first_match (nav : list IFileStat) (uri : URI) :
  match _getInitialSelection isEqual nav uri with
  | Some x =>
      ∃ pre post, nav = pre ++ x :: post
        ∧ isEqual uri (resource x) = true
        ∧ ∀ y, y ∈ pre → isEqual uri (resource y) = false
  | None => ∀ y, y ∈ nav → isEqual uri (resource y) = false
  end.
Proof.
  induction nav as [|z nav IH]; simpl.
  - intros y Hy. by apply elem_of_nil in Hy.
  - destruct (isEqual uri (resource z)) eqn:Hz.
    + exists [], nav. split; [done|]. split; [done|].
      intros y Hy. by apply elem_of_nil in Hy.
    + destruct (_getInitialSelection isEqual nav uri) as [x|].
      * destruct IH as (pre & post & -> & Hx & Hpre).
        exists (z :: pre), post. split; [done|]. split; [done|].
        intros y [->|Hy]%elem_of_cons; [done|by apply Hpre].
      * intros y [->|Hy]%elem_of_cons; [done|by apply IH].
Qed.

End initial_selection.

(** *** Data source *)

Section data_source.

Variable resolveFile : URI → option Resolved.

Lemma remember_parent_lookup parent (cs : list StatObject)
    (m : gmap nat StatObject) (k : nat) :
  remember_parent parent cs m !! k
  = if decide (k ∈ map ref cs) then Some parent else m !! k.
Proof.
  unfold remember_parent.
  induction cs as [|child cs IH] using rev_ind.
  - destruct (decide (k ∈ map ref [])) as [Hk|]; [|done].
    by apply elem_of_nil in Hk.
  - rewrite foldl_app, map_app. simpl.
    destruct (decide (ref child = k)) as [<-|Hne].
    + rewrite lookup_insert_eq. rewrite decide_True; [done|].
      apply elem_of_app. right. by apply list_elem_of_singleton.
    + rewrite lookup_insert_ne by done. rewrite IH.
      destruct (decide (k ∈ map ref cs)) as [Hin|Hnin].
      * rewrite decide_True; [done|]. apply elem_of_app. by left.
      * rewrite decide_False; [done|].
        intros Hin. apply elem_of_app in Hin as [Hin|Hin]; [done|].
        apply list_elem_of_singleton in Hin. congruence.
Qed.

(** X13. When [getChildren] resolves, [getParent] of every child it
    returned is the stat that was resolved, and [getParent] of every other
    stat object is what it was before.  When [getChildren] is rejected, by
    the file service or because the resolved stat lists no children, the
    data source is unchanged.  [getParent] of the input URI is always
    nothing. *)
Theorem getChildren_then_getParent (element : Element) (ds : FileDataSource) :
  match getChildren resolveFile element ds with
  | (ds', Some cs) =>
      ∃ resolved,
        resolveFile (getId element) = Some resolved
        ∧ children resolved = Some cs
        ∧ (∀ child, child ∈ cs →
             getParent (OfStat child) ds' = Some (self resolved))
        ∧ (∀ o, ref o ∉ map ref cs →
             getParent (OfStat o) ds' = getParent (OfStat o) ds)
        ∧ ∀ u, getParent (OfUri u) ds' = None
  | (ds', None) => ds' = ds
  end.
Proof.
  unfold getChildren.
  replace (match element with OfStat o => resource (stat o) | OfUri u => u end)
    with (getId element) by by destruct element.
  destruct (resolveFile (getId element)) as [resolved|]; [|done].
  destruct (children resolved) as [cs|] eqn:Hcs; [|done].
  exists resolved. split; [done|]. split; [done|]. simpl.
  split; [|split; [|done]].
  - intros child Hchild. rewrite remember_parent_lookup.
    rewrite decide_True; [done|]. by apply list_elem_of_fmap_2.
  - intros o Ho. rewrite remember_parent_lookup. by rewrite decide_False.
Qed.

End data_source.

(** *** The sorter as a comparator *)

Section sorter.

Variable compareFileNames : string → string → Z.

Lemma compare_cases (a b : IFileStat) :
  (isDirectory a = isDirectory b
   ∧ compare compareFileNames a b = compareFileNames (name a) (name b))
  ∨ (isDirectory a = true ∧ isDirectory b = false
     ∧ compare compareFileNames a b = (-1)%Z)
  ∨ (isDirectory a = false ∧ isDirectory b = true
     ∧ compare compareFileNames a b = 1%Z).
Proof.
  unfold compare. destruct (isDirectory a), (isDirectory b); simpl; auto.
Qed.

(** X14. Whenever [compareFileNames] is a consistent comparison on names
    (swapping the arguments swaps the sign, and "not after" is
    transitive), [FileSorter.compare] is one on file stats.  Whatever
    [compareFileNames] is, a list in which every element is not after any
    later one splits into directories followed by non-directories. *)
Theorem compare_is_consistent :
  (∀ x y, (compareFileNames x y < 0)%Z ↔ (0 < compareFileNames y x)%Z) →
  (∀ x y z, (compareFileNames x y ≤ 0)%Z → (compareFileNames y z ≤ 0)%Z →
     (compareFileNames x z ≤ 0)%Z) →
  (∀ a b, (compare compareFileNames a b < 0)%Z
          ↔ (0 < compare compareFileNames b a)%Z)
  ∧ (∀ a b c, (compare compareFileNames a b ≤ 0)%Z →
       (compare compareFileNames b c ≤ 0)%Z →
       (compare compareFileNames a c ≤ 0)%Z)
  ∧ (∀ l : list IFileStat,
       (∀ i j a b, i < j → l !! i = Some a → l !! j = Some b →
          (compare compareFileNames a b ≤ 0)%Z) →
       ∃ dirs files, l = dirs ++ files
         ∧ Forall (λ a, isDirectory a = true) dirs
         ∧ Forall (λ a, isDirectory a = false) files).
Proof.
  intros Hanti Htrans. split; [|split].
  - intros a b.
    destruct (compare_cases a b) as [[E ->]|[(Ha & Hb & ->)|(Ha & Hb & ->)]],
      (compare_cases b a) as [[E' ->]|[(Ha' & Hb' & ->)|(Ha' & Hb' & ->)]];
      try congruence; try (split; lia); apply Hanti.
  - intros a b c.
    destruct (compare_cases a b) as [[Eab ->]|[(Ha & Hb & ->)|(Ha & Hb & ->)]],
      (compare_cases b c) as [[Ebc ->]|[(Hb' & Hc & ->)|(Hb' & Hc & ->)]],
      (compare_cases a c) as [[Eac ->]|[(Ha' & Hc' & ->)|(Ha' & Hc' & ->)]];
      try congruence; try lia; rewrite <-?Eab, <-?Ebc in *; try congruence;
      apply Htrans.
  - clear Hanti Htrans. induction l as [|a l IH]; intros Hsorted.
    + exists [], []. by repeat split.
    + destruct IH as (dirs & files & -> & Hd & Hf).
      { intros i j x y Hij Hx Hy. apply (Hsorted (S i) (S j)); [lia|done..]. }
      destruct (isDirectory a) eqn:Ha.
      * exists (a :: dirs), files. split; [done|]. split; [|done].
        by apply Forall_cons.
      * exists [], (a :: dirs ++ files). split; [done|]. split; [done|].
        apply Forall_cons. split; [done|].
        apply Forall_forall. intros b Hb.
        apply list_elem_of_lookup in Hb as [j Hj].
        specialize (Hsorted 0 (S j) a b ltac:(lia) eq_refl Hj).
        destruct (compare_cases a b) as [[E _]|[(? & _)|(_ & _ & Hc)]];
          [congruence|congruence|lia].
Qed.

End sorter.

Lemma getChildren_then_getParent_witness :
  getParent (OfStat {| ref := 12; stat := readme |})
    (fst (getChildren resolve_w (OfUri "file:///w") {| _parents := ∅ |}))
  = Some {| ref := 10;
            stat := {| name := "w"; resource := "file:///w";
                       isDirectory := true |} |}.
Proof.
  pose proof (getChildren_then_getParent resolve_w (OfUri "file:///w")
                {| _parents := ∅ |}) as H.
  simpl in H. destruct H as (resolved & Hres & _ & Hchild & _).
  injection Hres as <-. apply Hchild.
  apply elem_of_cons. right. by apply elem_of_cons; left.
Defined.

Lemma initial_selection_is_first_match_witness :
  ∃ pre post, [src_dir; readme; a_ts] = pre ++ readme :: post
    ∧ String.eqb "file:///w/README.md" (resource readme) = true
    ∧ ∀ y, y ∈ pre → String.eqb "file:///w/README.md" (resource y) = false.
Proof.
  exact (initial_selection_is_first_match String.eqb [src_dir; readme; a_ts]
           "file:///w/README.md").
Defined.

Lemma compare_is_consistent_witness :
  (compare compare_lengths a_ts readme < 0)%Z
  ↔ (0 < compare compare_lengths readme a_ts)%Z.
Proof.
  refine (proj1 (compare_is_consistent compare_lengths _ _) a_ts readme).
  - intros x y. unfold compare_lengths. lia.
  - intros x y z. unfold compare_lengths. lia.
Defined.

End PickerMore.

(** ** Breadcrumbs control *)

Module ControlProps.
Import Control.

Section item.

Variable isEqual : URI → URI → bool.

(** X15. [Item.equals] never holds between a file item and a symbol item,
    nor with an item of another class.  When [isEqual] is an equivalence
    on URIs, [equals] is one on items: every item equals itself, and the
    relation is symmetric and transitive.  Two symbol items are equal
    exactly when their ids are. *)
Theorem equals_is_equivalence :
  (∀ u, isEqual u u = true) →
  (∀ u v, isEqual u v = isEqual v u) →
  (∀ u v w, isEqual u v = true → isEqual v w = true → isEqual u w = true) →
  (∀ a, equals isEqual a (Item a) = true)
  ∧ (∀ a b, equals isEqual a (Item b) = equals isEqual b (Item a))
  ∧ (∀ a b c, equals isEqual a (Item b) = true →
       equals isEqual b (Item c) = true → equals isEqual a (Item c) = true)
  ∧ (∀ a n, equals isEqual a (Foreign n) = false)
  ∧ (∀ u f id x,
       equals isEqual (FileElement u f) (Item (OutlineGroup id x)) = false
       ∧ equals isEqual (FileElement u f) (Item (OutlineElement id x)) = false)
  ∧ (∀ id x id' x',
       equals isEqual (OutlineGroup id x) (Item (OutlineElement id' x')) = true
       ↔ id = id').
Proof.
  intros Hrefl Hsym Htrans. repeat split.
  - intros [u f|id x|id x]; simpl; [done|apply String.eqb_refl..].
  - intros [u f|id x|id x] [v g|id' y|id' y]; simpl;
      try done; apply String.eqb_sym.
  - intros [u f|id x|id x] [v g|id' y|id' y] [w k|id'' z|id'' z]; simpl;
      try done; try apply Htrans;
      rewrite !String.eqb_eq; congruence.
  - simpl. by rewrite String.eqb_eq.
  - simpl. by rewrite String.eqb_eq.
Qed.

End item.

Lemma call_create_hidden (k : Call) :
  _ckBreadcrumbsVisible (call create k) = negb (hidden (call create k)).
Proof. by destruct k as [[| |res model]|]. Qed.

Lemma call_keeps_key (c : BreadcrumbsControl) (k : Call) :
  _ckBreadcrumbsVisible c = negb (hidden c) →
  _ckBreadcrumbsVisible (call c k) = negb (hidden (call c k)).
Proof.
  intros Hc. destruct k as [[| |res model]|]; simpl; try done;
    unfold isHidden; simpl; by destruct (hidden c).
Qed.

(** X16. [update] returns [false] in one case only: there is nothing to
    show (no editor, or an input without resource) and the control is
    already hidden; the control then stays as it was but for its
    disposables.  After [update] the control is hidden exactly when there
    was nothing to show, and when there was, the widget holds one item per
    element of the model and reveals the last of them.  After one or more
    [update] or [hide] calls on a new control the [breadcrumbsVisible] key
    is on exactly when the control is not hidden. *)
Theorem update_visibility (input : ActiveEditor) (c : BreadcrumbsControl) :
  (snd (update input c) = false ↔ has_resource input = false ∧ hidden c = true)
  ∧ (snd (update input c) = false →
       hidden (fst (update input c)) = hidden c
       ∧ _ckBreadcrumbsVisible (fst (update input c)) = _ckBreadcrumbsVisible c
       ∧ items (fst (update input c)) = items c
       ∧ revealed (fst (update input c)) = revealed c)
  ∧ hidden (fst (update input c)) = negb (has_resource input)
  ∧ (∀ resource model, input = Editing resource model →
       items (fst (update input c)) = map Item (getElements model)
       ∧ revealed (fst (update input c)) = last (map Item (getElements model))
       ∧ relative_path (fst (update input c)) = isRelative model
       ∧ _ckBreadcrumbsVisible (fst (update input c)) = true)
  ∧ (∀ k ks,
       let c' := foldl call create (k :: ks) in
       _ckBreadcrumbsVisible c' = negb (hidden c')).
Proof.
  split; [|split; [|split; [|split]]].
  - destruct input as [| |res model]; simpl; unfold isHidden; simpl;
      destruct (hidden c); simpl; split; try done; by intros [? ?].
  - destruct input as [| |res model]; simpl; unfold isHidden; simpl;
      destruct (hidden c) eqn:Hh; simpl; done.
  - destruct input as [| |res model]; simpl; unfold isHidden; simpl;
      by destruct (hidden c) eqn:Hh.
  - by intros res model ->.
  - intros k ks. simpl. generalize (call_create_hidden k).
    generalize (call create k). clear k.
    induction ks as [|k ks IH]; intros c0 Hc0; [done|].
    simpl. apply IH. by apply call_keeps_key.
Qed.

Lemma equals_is_equivalence_witness :
  equals String.eqb (FileElement "file:///w/a.ts" true)
    (Item (FileElement "file:///w/a.ts" false))
  = equals String.eqb (FileElement "file:///w/a.ts" false)
      (Item (FileElement "file:///w/a.ts" true)).
Proof.
  refine (proj1 (proj2 (equals_is_equivalence String.eqb _ _ _)) _ _).
  - apply String.eqb_refl.
  - apply String.eqb_sym.
  - intros u v w. rewrite !String.eqb_eq. congruence.
Defined.

Lemma update_visibility_witness :
  items (fst (update NoResource (hide create))) = items (hide create).
Proof.
  apply (update_visibility NoResource (hide create)). reflexivity.
Defined.

End ControlProps.
